(** * mysql-schema-export: the row-to-tree reshaper, the configuration
      resolver and the table filter of [export-schema.py]

    The catalog rows that the cursor hands back are modelled as records, one
    record type per query.  A Python [dict] whose iteration order is observed
    (the buckets keyed by constraint or index name) is an insertion-ordered
    association list; the position-to-column dictionaries, which are only
    ever read through [sorted(d.keys())], are [gmap Z string]. *)

From Stdlib Require Import Ascii.
From stdpp Require Import gmap strings list sorting fin_maps.

Local Open Scope Z_scope.

(** ** Insertion-ordered dictionaries *)

Module Dict.
Section dict.
Context {K V : Type} `{EqDecision K}.

(** [d.get(k)], [None] when the key is absent. *)
Fixpoint get (k : K) (d : list (K * V)) : option V :=
  match d with
  | [] => None
  | (k', v) :: d' => if decide (k = k') then Some v else get k d'
  end.

(** [k in d]. *)
Definition mem (k : K) (d : list (K * V)) : bool :=
  match get k d with Some _ => true | None => false end.

(** [d[k] = v]: an existing key keeps its place, a new key goes last. *)
Fixpoint set (k : K) (v : V) (d : list (K * V)) : list (K * V) :=
  match d with
  | [] => [(k, v)]
  | (k', v') :: d' =>
      if decide (k = k') then (k, v) :: d' else (k', v') :: set k v d'
  end.

(** In-place mutation of the object stored under [k], as in
    [d[k][pos] = x] or [d[k]['columns'].append(x)]. *)
Definition update (k : K) (f : V → V) (d : list (K * V)) : list (K * V) :=
  match get k d with
  | Some v => set k (f v) d
  | None => d
  end.

Definition keys (d : list (K * V)) : list K := d.*1.
Definition values (d : list (K * V)) : list V := d.*2.
End dict.
End Dict.

(** ** Position-to-column dictionaries *)

(** [sorted(cols.keys())] *)
Definition sorted_keys (cols : gmap Z string) : list Z :=
  merge_sort Z.le (map_to_list cols).*1.

(** [[cols[pos] for pos in sorted(cols.keys())]]; a failed subscript would
    be a [KeyError], rendered as [None]. *)
Definition sorted_cols (cols : gmap Z string) : option (list string) :=
  mapM (λ pos, cols !! pos) (sorted_keys cols).

(** ** get_table_constraints (lines 120-158) *)

Record constraint_row := ConstraintRow {
  tc_CONSTRAINT_NAME : string;
  tc_CONSTRAINT_TYPE : string;
  kcu_COLUMN_NAME : string;
  kcu_ORDINAL_POSITION : Z
}.

Record unique_constraint := UniqueConstraint {
  uq_name : string;
  uq_columns : list string
}.

(** The state of the loop: [primary_key] and [unique_constraints]. *)
Definition constraints_state : Type :=
  gmap Z string * list (string * gmap Z string).

(** One iteration of [for row in rows]. *)
Definition constraints_step (st : constraints_state) (row : constraint_row)
  : constraints_state :=
  let '(primary_key, unique_constraints) := st in
  if decide (tc_CONSTRAINT_TYPE row = "PRIMARY KEY") then
    (<[kcu_ORDINAL_POSITION row := kcu_COLUMN_NAME row]> primary_key,
     unique_constraints)
  else if decide (tc_CONSTRAINT_TYPE row = "UNIQUE") then
    let constraint_name := tc_CONSTRAINT_NAME row in
    let unique_constraints :=
      if Dict.mem constraint_name unique_constraints then unique_constraints
      else Dict.set constraint_name ∅ unique_constraints in
    (primary_key,
     Dict.update constraint_name
       <[kcu_ORDINAL_POSITION row := kcu_COLUMN_NAME row]> unique_constraints)
  else st.

Definition constraints_buckets (rows : list constraint_row) : constraints_state :=
  foldl constraints_step (∅, []) rows.

(** The body of the second loop: one unique constraint flattened. *)
Definition flatten_unique (item : string * gmap Z string)
  : option unique_constraint :=
  sorted ← sorted_cols item.2;
  Some (UniqueConstraint item.1 sorted).

(** [get_table_constraints], on the rows fetched by its query. *)
Definition get_table_constraints (rows : list constraint_row)
  : option (list string * list unique_constraint) :=
  let '(primary_key, unique_constraints) := constraints_buckets rows in
  sorted_pk ← sorted_cols primary_key;
  unique_out ← mapM flatten_unique unique_constraints;
  Some (sorted_pk, unique_out).

(** ** get_table_columns (lines 91-117) *)

Record column_row := ColumnRow {
  col_COLUMN_NAME : string;
  col_COLUMN_TYPE : string;
  col_IS_NULLABLE : string;
  col_COLUMN_DEFAULT : option string;
  col_EXTRA : string;
  col_COLUMN_COMMENT : string;
  col_ORDINAL_POSITION : Z
}.

Record column := Column {
  c_name : string;
  c_type : string;
  c_nullable : bool;
  c_default : option string;
  c_extra : string;
  c_comment : string;
  c_position : Z
}.

Definition get_table_columns (rows : list column_row) : list column :=
  map (λ row,
         {| c_name := col_COLUMN_NAME row;
            c_type := col_COLUMN_TYPE row;
            c_nullable := bool_decide (col_IS_NULLABLE row = "YES");
            c_default := col_COLUMN_DEFAULT row;
            c_extra := col_EXTRA row;
            c_comment := col_COLUMN_COMMENT row;
            c_position := col_ORDINAL_POSITION row |}) rows.

(** ** get_table_indexes (lines 161-198) *)

Record index_row := IndexRow {
  st_INDEX_NAME : string;
  st_NON_UNIQUE : Z;
  st_SEQ_IN_INDEX : Z;
  st_COLUMN_NAME : string
}.

(** The value stored under an index name in [index_buckets]. *)
Record index_bucket := IndexBucket {
  ib_name : string;
  ib_unique : bool;
  ib_columns : gmap Z string
}.

Record index := Index {
  ix_name : string;
  ix_unique : bool;
  ix_columns : list string
}.

Definition ib_add_column (pos : Z) (col : string) (b : index_bucket)
  : index_bucket :=
  {| ib_name := ib_name b; ib_unique := ib_unique b;
     ib_columns := <[pos := col]> (ib_columns b) |}.

(** One iteration of the grouping loop. *)
Definition index_step (index_buckets : list (string * index_bucket))
    (row : index_row) : list (string * index_bucket) :=
  let index_name := st_INDEX_NAME row in
  let index_buckets :=
    if Dict.mem index_name index_buckets then index_buckets
    else Dict.set index_name
           {| ib_name := index_name;
              ib_unique := bool_decide (st_NON_UNIQUE row = 0);
              ib_columns := ∅ |} index_buckets in
  Dict.update index_name
    (ib_add_column (st_SEQ_IN_INDEX row) (st_COLUMN_NAME row)) index_buckets.

Definition index_buckets (rows : list index_row) : list (string * index_bucket) :=
  foldl index_step [] rows.

Definition flatten_index (item : string * index_bucket) : option index :=
  sorted ← sorted_cols (ib_columns item.2);
  Some {| ix_name := item.1; ix_unique := ib_unique item.2;
          ix_columns := sorted |}.

(** ** get_table_foreign_keys (lines 201-236) *)

Record fk_row := FkRow {
  fk_CONSTRAINT_NAME : string;
  fk_COLUMN_NAME : string;
  fk_row_ref_table : string;
  fk_row_ref_column : string;
  fk_UPDATE_RULE : string;
  fk_DELETE_RULE : string
}.

Record foreign_key := ForeignKey {
  fk_name : string;
  fk_columns : list string;
  fk_ref_table : string;
  fk_ref_columns : list string;
  fk_on_update : string;
  fk_on_delete : string
}.

(** The two [append]s of the loop body. *)
Definition fk_append (row : fk_row) (b : foreign_key) : foreign_key :=
  {| fk_name := fk_name b;
     fk_columns := fk_columns b ++ [fk_COLUMN_NAME row];
     fk_ref_table := fk_ref_table b;
     fk_ref_columns := fk_ref_columns b ++ [fk_row_ref_column row];
     fk_on_update := fk_on_update b;
     fk_on_delete := fk_on_delete b |}.

Definition fk_step (fk_buckets : list (string * foreign_key)) (row : fk_row)
  : list (string * foreign_key) :=
  let constraint_name := fk_CONSTRAINT_NAME row in
  let fk_buckets :=
    if Dict.mem constraint_name fk_buckets then fk_buckets
    else Dict.set constraint_name
           {| fk_name := constraint_name;
              fk_columns := [];
              fk_ref_table := fk_row_ref_table row;
              fk_ref_columns := [];
              fk_on_update := fk_UPDATE_RULE row;
              fk_on_delete := fk_DELETE_RULE row |} fk_buckets in
  Dict.update constraint_name (fk_append row) fk_buckets.

(** [get_table_foreign_keys], on the rows fetched by its query. *)
Definition get_table_foreign_keys (rows : list fk_row) : list foreign_key :=
  Dict.values (foldl fk_step [] rows).

(** ** get_table_info (lines 239-258) and get_table_ddl (lines 261-273) *)

(** [cursor.fetchone()], on the rows the query produced. *)
Definition fetchone {A} (rows : list A) : option A := head rows.

Record info_row := InfoRow {
  t_TABLE_ROWS : option Z;
  t_ENGINE : option string;
  t_TABLE_COLLATION : option string
}.

Record table_info := TableInfo {
  row_count_est : option Z;
  engine : option string;
  collation : option string
}.

Definition get_table_info (rows : list info_row) : table_info :=
  match fetchone rows with
  | Some row =>
      {| row_count_est := t_TABLE_ROWS row;
         engine := t_ENGINE row;
         collation := t_TABLE_COLLATION row |}
  | None => {| row_count_est := None; engine := None; collation := None |}
  end.

(** A row of [SHOW CREATE TABLE] stays a dictionary: the code reads it with
    [row.get('Create Table', '')] and tests it for truth, and an empty
    dictionary is false. *)
Definition get_table_ddl (rows : list (gmap string string)) : string :=
  match fetchone rows with
  | Some row =>
      if bool_decide (row = ∅) then ""
      else default "" (row !! "Create Table")
  | None => ""
  end.

(** ** Python values and the configuration sources *)

(** The values a setting can hold: [None], a [str] (command line,
    environment, config file, default) or an [int] ([--port], whose
    argparse type is [int], and the default port). *)
Inductive value := VNone | VStr (s : string) | VInt (n : Z).

Global Instance value_eq_dec : EqDecision value.
Proof. solve_decision. Defined.

Definition opt_str (o : option string) : value := from_option VStr VNone o.
Definition opt_int (o : option Z) : value := from_option VInt VNone o.

(** Truth value of a setting, as in [not db_name]. *)
Definition truthy (v : value) : bool :=
  match v with
  | VNone => false
  | VStr s => negb (bool_decide (s = ""))
  | VInt n => negb (bool_decide (n = 0))
  end.

(** What [load_config_file] returns: the empty dictionary [{}] or a
    [ConfigParser], seen through its mapping protocol (section, then key):
    the entries are the values the parser hands out. *)
Inductive config_file :=
  | EmptyDict
  | Parser (sections : gmap string (gmap string string)).

(** [section in config_file and key in config_file[section]], then
    [config_file[section][key]]; [{}] is false, a [ConfigParser] is true. *)
Definition config_entry (config_file : config_file) (section key : string)
  : option string :=
  match config_file with
  | EmptyDict => None
  | Parser sections => sections !! section ≫= λ sec, sec !! key
  end.

(** [get_config_value] (lines 76-88); [environ] is the process
    environment read by [os.getenv]. *)
Definition get_config_value (environ : gmap string string)
    (cli_arg : value) (env_var : string) (config_file : config_file)
    (section key : string) (default : value) : value :=
  match cli_arg with
  | VNone =>
      match environ !! env_var with
      | Some env_val => VStr env_val
      | None =>
          match config_entry config_file section key with
          | Some file_val => VStr file_val
          | None => default
          end
      end
  | _ => cli_arg
  end.

(** The first candidate that is not [None], the resolver as the
    specification words it. *)
Definition first_present (candidates : list value) : value :=
  default VNone (head (filter (λ v, v ≠ VNone) candidates)).

(** ** The filter string *)

Definition startswith_slash (s : string) : bool :=
  match s with
  | String c _ => bool_decide (c = "/"%char)
  | EmptyString => false
  end.

Fixpoint endswith_slash (s : string) : bool :=
  match s with
  | EmptyString => false
  | String c EmptyString => bool_decide (c = "/"%char)
  | String _ s' => endswith_slash s'
  end.

(** [s[:-1]] *)
Fixpoint drop_last (s : string) : string :=
  match s with
  | EmptyString => EmptyString
  | String _ EmptyString => EmptyString
  | String c s' => String c (drop_last s')
  end.

(** [s[1:-1]] *)
Definition slice_1_m1 (s : string) : string :=
  match s with
  | EmptyString => EmptyString
  | String _ s' => drop_last s'
  end.

(** Lines 298-300 of [main]. *)
Definition strip_delimiters (table_filter : string) : string :=
  if startswith_slash table_filter && endswith_slash table_filter
  then slice_1_m1 table_filter
  else table_filter.

(** [os.path.join(a, b)] of posixpath, for two components. *)
Definition os_path_join (a b : string) : string :=
  match b with
  | String "/" _ => b
  | _ => if bool_decide (a = "") || endswith_slash a then a +:+ b
         else a +:+ "/" +:+ b
  end.

(** ** The export document *)

Record table_record := TableRecord {
  tr_name : string;
  tr_columns : list column;
  tr_primary_key : list string;
  tr_unique : list unique_constraint;
  tr_indexes : list index;
  tr_foreign_keys : list foreign_key;
  tr_table_info : table_info;
  tr_ddl : string
}.

Record document := Document {
  doc_database : string;
  doc_generated_at : string;
  doc_schema_version : string;
  doc_tables : list table_record
}.

(** ** The world around [main] *)

(** The namespace returned by [parse_args]. *)
Record args := Args {
  a_help : bool;
  a_host : option string;
  a_database : option string;
  a_user : option string;
  a_password : option string;
  a_port : option Z;
  a_output : option string;
  a_filter : option string
}.

(** [config.ini] as [load_config_file] finds it. *)
Inductive config_ini :=
  | IniMissing
  | IniUnreadable
  | IniParsed (sections : gmap string (gmap string string)).

(** An open connection, as the rows each of the program's queries fetches. *)
Record connection := Connection {
  rows_BASE_TABLES : list string;
  rows_COLUMNS : string → string → list column_row;
  rows_TABLE_CONSTRAINTS : string → string → list constraint_row;
  rows_STATISTICS : string → string → list index_row;
  rows_REFERENTIAL : string → string → list fk_row;
  rows_TABLES : string → string → list info_row;
  rows_SHOW_CREATE : string → list (gmap string string)
}.

Record world := World {
  w_args : args;
  w_environ : gmap string string;
  w_config_ini : config_ini;
  (** [datetime.now().strftime('%Y-%m-%d')] and [datetime.now().isoformat()] *)
  w_today : string;
  w_now : string;
  (** whether [Path(output_dir).mkdir] succeeds *)
  w_mkdir_ok : string → bool;
  (** [pymysql.connect(host, port, user, password, database)] *)
  w_connect : string → Z → string → string → string → option connection;
  (** whether opening and dumping to the output file succeeds *)
  w_write_ok : string → bool
}.

Inductive query :=
  | QShowFullTables
  | QColumns (db table : string)
  | QTableConstraints (db table : string)
  | QStatistics (db table : string)
  | QForeignKeys (db table : string)
  | QTables (db table : string)
  | QShowCreateTable (table : string).

(** What the program prints; figures that are formatted into a line are
    kept as arguments (the file size of the last line is left out). *)
Inductive message :=
  | MsgHelp
  | MsgConfigWarning
  | MsgRequired
  | MsgUseArguments
  | MsgRunHelp
  | MsgInvalidRegex (table_filter : string)
  | MsgConnected (db_name db_host : string)
  | MsgConnectionFailed
  | MsgProcessing (total_tables : nat) (table_filter : string)
  | MsgProcessingTable (current_table total_tables : nat) (table : string)
  | MsgExportComplete (output_file : string)
  | MsgExported (filtered_count : nat)
  | MsgWriteFailed (output_file : string).

(** The observable actions of a run, in order. *)
Inductive event :=
  | Print (m : message)
  | Mkdir (dir : string)
  | Connect (host : string) (port : Z) (user password database : string)
  | Execute (q : query)
  | WriteJson (output_file : string) (output : document)
  | CloseConnection.

(** How the process ends: [sys.exit(code)] (falling off the end of [main]
    is [Exit 0]) or an exception nobody catches. *)
Inductive outcome :=
  | Exit (code : Z)
  | Uncaught (exception : string).

(** ** A monad for traces and early exits *)

Definition M (A : Type) : Type := list event * (outcome + A).

Global Instance M_ret : MRet M := λ A x, ([], inr x).
Global Instance M_bind : MBind M := λ A B k m,
  match m with
  | (t, inl o) => (t, inl o)
  | (t, inr a) => let '(t', r) := k a in (t ++ t', r)
  end.

Definition emit (e : event) : M unit := ([e], inr ()).
Definition print (m : message) : M unit := emit (Print m).
Definition sys_exit {A} (code : Z) : M A := ([], inl (Exit code)).
Definition raise {A} (exception : string) : M A := ([], inl (Uncaught exception)).

(** [try: body finally: fin] *)
Definition finally {A} (body : M A) (fin : list event) : M A :=
  let '(t, r) := body in (t ++ fin, r).

(** A subscript that would raise [KeyError]. *)
Definition key_error {A} (o : option A) : M A :=
  match o with Some a => mret a | None => raise "KeyError" end.

(** A use of a setting where only a [str] will do. *)
Definition as_str (v : value) : M string :=
  match v with VStr s => mret s | _ => raise "TypeError" end.

(** [load_config_file] (lines 47-58) *)
Definition load_config_file (ini : config_ini) : M config_file :=
  match ini with
  | IniMissing => mret EmptyDict
  | IniUnreadable => _ ← print MsgConfigWarning; mret EmptyDict
  | IniParsed sections => mret (Parser sections)
  end.

(** ** The program, over the library functions it calls

    [re.compile] and [Pattern.match], [int] on a string and [str.upper]
    belong to Python, not to this repository: the program is written over
    them.  [re_compile] is [None] where [re.compile] raises [re.error];
    [re_match p s] says that [p.match(s)] is not [None]. *)

Section program.
Context {pattern : Type}.
Variable re_compile : string → option pattern.
Variable re_match : pattern → string → bool.
Variable py_int : string → option Z.
Variable str_upper : string → string.

(** The second loop of [get_table_indexes] skips the buckets whose name
    is [PRIMARY] once upper-cased. *)
Definition is_secondary (item : string * index_bucket) : bool :=
  negb (bool_decide (str_upper item.1 = "PRIMARY")).

(** [get_table_indexes], on the rows fetched by its query. *)
Definition get_table_indexes (rows : list index_row) : option (list index) :=
  mapM flatten_index (filter (λ item, is_secondary item) (index_buckets rows)).

(** [int(v)] *)
Definition int_ (v : value) : M Z :=
  match v with
  | VInt n => mret n
  | VStr s => match py_int s with
              | Some n => mret n
              | None => raise "ValueError"
              end
  | VNone => raise "TypeError"
  end.

(** The six queries of one table and the record assembled from them. *)
Definition export_table (conn : connection) (db_name table : string)
  : M table_record :=
  _ ← emit (Execute (QColumns db_name table));
  let columns := get_table_columns (rows_COLUMNS conn db_name table) in
  _ ← emit (Execute (QTableConstraints db_name table));
  constraints ←
    key_error (get_table_constraints (rows_TABLE_CONSTRAINTS conn db_name table));
  _ ← emit (Execute (QStatistics db_name table));
  indexes ← key_error (get_table_indexes (rows_STATISTICS conn db_name table));
  _ ← emit (Execute (QForeignKeys db_name table));
  let foreign_keys := get_table_foreign_keys (rows_REFERENTIAL conn db_name table) in
  _ ← emit (Execute (QTables db_name table));
  let table_info := get_table_info (rows_TABLES conn db_name table) in
  _ ← emit (Execute (QShowCreateTable table));
  let ddl := get_table_ddl (rows_SHOW_CREATE conn table) in
  mret {| tr_name := table;
          tr_columns := columns;
          tr_primary_key := constraints.1;
          tr_unique := constraints.2;
          tr_indexes := indexes;
          tr_foreign_keys := foreign_keys;
          tr_table_info := table_info;
          tr_ddl := ddl |}.

(** [for table in all_tables], with its two counters. *)
Fixpoint process_tables (conn : connection) (db_name : string)
    (pat : pattern) (total_tables : nat) (tables : list string)
    (current_table : nat) (tables_out : list table_record)
  : M (list table_record) :=
  match tables with
  | [] => mret tables_out
  | table :: rest =>
      if negb (re_match pat table) then
        process_tables conn db_name pat total_tables rest
          current_table tables_out
      else
        let current_table := S current_table in
        _ ← print (MsgProcessingTable current_table total_tables table);
        rec ← export_table conn db_name table;
        process_tables conn db_name pat total_tables rest
          current_table (tables_out ++ [rec])
  end.

(** The body of the outer [try] of [main] (lines 336-399): list, filter,
    export, write. *)
Definition export_schema (w : world) (conn : connection)
    (db_name table_filter output_file schema_version : string) : M unit :=
  _ ← emit (Execute QShowFullTables);
  let all_tables := rows_BASE_TABLES conn in
  let total_tables := length all_tables in
  _ ← print (MsgProcessing total_tables table_filter);
  pat ← match re_compile table_filter with
        | Some pat => mret pat
        | None => raise "re.error"
        end;
  tables_out ← process_tables conn db_name pat total_tables all_tables O [];
  let output := {| doc_database := db_name;
                   doc_generated_at := w_now w;
                   doc_schema_version := schema_version;
                   doc_tables := tables_out |} in
  _ ← emit (WriteJson output_file output);
  if w_write_ok w output_file then
    _ ← print (MsgExportComplete output_file);
    print (MsgExported (length tables_out))
  else
    _ ← print (MsgWriteFailed output_file);
    sys_exit 1.

(** [main] (lines 276-402), from argument parsing on; [w_args] is what
    [parse_args] returned.  The settings are held as Python values; where
    the code needs a [str] the value is taken [as_str]. *)
Definition main_body (w : world) : M unit :=
  let args := w_args w in
  if a_help args then
    _ ← print MsgHelp; sys_exit 0
  else
    config_file ← load_config_file (w_config_ini w);
    let conf := get_config_value (w_environ w) in
    let db_host := conf (opt_str (a_host args)) "DB_HOST" config_file
                     "database" "host" (VStr "localhost") in
    let db_name := conf (opt_str (a_database args)) "DB_NAME" config_file
                     "database" "name" (VStr "") in
    let db_user := conf (opt_str (a_user args)) "DB_USER" config_file
                     "database" "user" (VStr "") in
    let db_pass := conf (opt_str (a_password args)) "DB_PASS" config_file
                     "database" "password" (VStr "") in
    db_port ← int_ (conf (opt_int (a_port args)) "DB_PORT" config_file
                      "database" "port" (VInt 3306));
    let table_filter := conf (opt_str (a_filter args)) "TABLE_NAME_REGEXP"
                          config_file "export" "table_filter" (VStr ".*") in
    let output_dir := conf (opt_str (a_output args)) "OUTPUT_DIR" config_file
                        "export" "output_dir" (VStr "./export") in
    let schema_version :=
      default (w_today w) (w_environ w !! "SCHEMA_VERSION") in
    table_filter ← as_str table_filter;
    let table_filter := strip_delimiters table_filter in
    if negb (truthy db_name) || negb (truthy db_user) then
      _ ← print MsgRequired;
      _ ← print MsgUseArguments;
      _ ← print MsgRunHelp;
      sys_exit 1
    else
      match re_compile table_filter with
      | None => _ ← print (MsgInvalidRegex table_filter); sys_exit 1
      | Some _ =>
          output_dir ← as_str output_dir;
          _ ← emit (Mkdir output_dir);
          if negb (w_mkdir_ok w output_dir) then raise "OSError" else
          db_name ← as_str db_name;
          let output_file :=
            os_path_join output_dir ("schema_" +:+ db_name +:+ ".json") in
          db_host ← as_str db_host;
          db_user ← as_str db_user;
          db_pass ← as_str db_pass;
          _ ← emit (Connect db_host db_port db_user db_pass db_name);
          match w_connect w db_host db_port db_user db_pass db_name with
          | None => _ ← print MsgConnectionFailed; sys_exit 1
          | Some conn =>
              _ ← print (MsgConnected db_name db_host);
              finally
                (export_schema w conn db_name table_filter output_file
                   schema_version)
                [CloseConnection]
          end
      end.

(** The run as the operating system sees it: what happened, and the
    exit status. *)
Definition main (w : world) : list event * outcome :=
  let '(t, r) := main_body w in
  (t, match r with inl o => o | inr _ => Exit 0 end).
End program.

(** ** A regular-expression engine for a fragment of [re]

    Literal characters, [.] and a postfix [*], matched by derivatives.
    The fragment is enough to run the program on concrete filter strings;
    a pattern outside it is not compiled. *)

Module Re.
Inductive regex :=
  | Empty
  | Eps
  | Chr (c : ascii)
  | Dot
  | Cat (r1 r2 : regex)
  | Alt (r1 r2 : regex)
  | Star (r : regex).

Fixpoint nullable (r : regex) : bool :=
  match r with
  | Empty | Chr _ | Dot => false
  | Eps | Star _ => true
  | Cat r1 r2 => nullable r1 && nullable r2
  | Alt r1 r2 => nullable r1 || nullable r2
  end.

Definition newline : ascii := ascii_of_nat 10.

Fixpoint deriv (c : ascii) (r : regex) : regex :=
  match r with
  | Empty | Eps => Empty
  | Chr c' => if bool_decide (c = c') then Eps else Empty
  | Dot => if bool_decide (c = newline) then Empty else Eps
  | Cat r1 r2 =>
      if nullable r1 then Alt (Cat (deriv c r1) r2) (deriv c r2)
      else Cat (deriv c r1) r2
  | Alt r1 r2 => Alt (deriv c r1) (deriv c r2)
  | Star r1 => Cat (deriv c r1) (Star r1)
  end.

(** [Pattern.match]: some prefix of [s] is in the language of [r]. *)
Fixpoint re_match (r : regex) (s : string) : bool :=
  nullable r ||
  match s with
  | EmptyString => false
  | String c s' => re_match (deriv c r) s'
  end.

(** [Pattern.search]: [r] matches at some position of [s]. *)
Fixpoint re_search (r : regex) (s : string) : bool :=
  re_match r s ||
  match s with
  | EmptyString => false
  | String _ s' => re_search r s'
  end.

Definition is_special (c : ascii) : bool :=
  bool_decide (c ∈ String.list_ascii_of_string "\^$*+?{}[]|()").

Definition atom (c : ascii) : regex :=
  if bool_decide (c = "."%char) then Dot else Chr c.

(** [re.compile] on the fragment. *)
Fixpoint re_compile (p : string) : option regex :=
  match p with
  | EmptyString => Some Eps
  | String c rest =>
      if is_special c then None else
      match rest with
      | String c' rest' =>
          if bool_decide (c' = "*"%char)
          then Cat (Star (atom c)) <$> re_compile rest'
          else Cat (atom c) <$> re_compile rest
      | EmptyString => Some (Cat (atom c) Eps)
      end
  end.
End Re.

(** ** [int] and [str.upper] on ASCII text *)

Module Ascii7.
Fixpoint digits (s : string) (acc : Z) : option Z :=
  match s with
  | EmptyString => Some acc
  | String c s' =>
      let d := Z.of_nat (nat_of_ascii c) - 48 in
      if bool_decide (0 ≤ d ≤ 9) then digits s' (10 * acc + d) else None
  end.

(** [int(s)] for a non-empty run of decimal digits; signs, blanks and
    underscores, which [int] also reads, are outside the fragment. *)
Definition int (s : string) : option Z :=
  match s with
  | EmptyString => None
  | _ => digits s 0
  end.

Definition upper_char (c : ascii) : ascii :=
  let n := nat_of_ascii c in
  if bool_decide (97 ≤ n ≤ 122)%nat then ascii_of_nat (n - 32) else c.

(** [s.upper()] for ASCII [s]. *)
Fixpoint upper (s : string) : string :=
  match s with
  | EmptyString => EmptyString
  | String c s' => String (upper_char c) (upper s')
  end.
End Ascii7.

(** The program on the concrete library fragment. *)
Definition run : world → list event * outcome :=
  main Re.re_compile Re.re_match Ascii7.int Ascii7.upper.

Definition empty_connection : connection :=
  {| rows_BASE_TABLES := [];
     rows_COLUMNS := λ _ _, [];
     rows_TABLE_CONSTRAINTS := λ _ _, [];
     rows_STATISTICS := λ _ _, [];
     rows_REFERENTIAL := λ _ _, [];
     rows_TABLES := λ _ _, [];
     rows_SHOW_CREATE := λ _, [] |}.

Definition no_args : args :=
  {| a_help := false; a_host := None; a_database := None; a_user := None;
     a_password := None; a_port := None; a_output := None; a_filter := None |}.

(** A database [shop] with the base tables [users], [user_roles] and
    [orders]; [users] has a two-column primary key and a unique key. *)
Definition shop : connection :=
  {| rows_BASE_TABLES := ["users"; "user_roles"; "orders"];
     rows_COLUMNS := λ _ t,
       if bool_decide (t = "users")
       then [ColumnRow "id" "int" "NO" None "auto_increment" "" 1;
             ColumnRow "email" "varchar(255)" "YES" None "" "" 2]
       else [];
     rows_TABLE_CONSTRAINTS := λ _ t,
       if bool_decide (t = "users")
       then [ConstraintRow "PRIMARY" "PRIMARY KEY" "id" 1;
             ConstraintRow "uq_email" "UNIQUE" "email" 1]
       else [];
     rows_STATISTICS := λ _ t,
       if bool_decide (t = "users")
       then [IndexRow "PRIMARY" 0 1 "id"; IndexRow "uq_email" 0 1 "email"]
       else [];
     rows_REFERENTIAL := λ _ _, [];
     rows_TABLES := λ _ t,
       if bool_decide (t = "users")
       then [InfoRow (Some 42) (Some "InnoDB") (Some "utf8mb4_general_ci")]
       else [];
     rows_SHOW_CREATE := λ t,
       [{["Table" := t; "Create Table" := "CREATE TABLE ..."]}] |}.

Definition shop_world (a : args) : world :=
  {| w_args := a;
     w_environ := ∅;
     w_config_ini := IniMissing;
     w_today := "2024-01-01";
     w_now := "2024-01-01T00:00:00";
     w_mkdir_ok := λ _, true;
     w_connect := λ _ _ _ _ _, Some shop;
     w_write_ok := λ _, true |}.

Definition shop_args (table_filter : option string) : args :=
  {| a_help := false; a_host := None; a_database := Some "shop";
     a_user := Some "root"; a_password := None; a_port := None;
     a_output := None; a_filter := table_filter |}.

(** The names of the tables in the documents written during a run. *)
Definition written_tables (r : list event * outcome) : list (list string) :=
  omap (λ e, match e with
             | WriteJson _ output => Some (tr_name <$> doc_tables output)
             | _ => None
             end) r.1.

(** ** The specification side of the reshaper *)

(** Rows of one entity as (position, column) pairs, in arrival order. *)
Definition pk_pairs (rows : list constraint_row) : list (Z * string) :=
  (λ r, (kcu_ORDINAL_POSITION r, kcu_COLUMN_NAME r)) <$>
  filter (λ r, tc_CONSTRAINT_TYPE r = "PRIMARY KEY") rows.

Definition uq_pairs (name : string) (rows : list constraint_row)
  : list (Z * string) :=
  (λ r, (kcu_ORDINAL_POSITION r, kcu_COLUMN_NAME r)) <$>
  filter (λ r, tc_CONSTRAINT_NAME r = name ∧ tc_CONSTRAINT_TYPE r = "UNIQUE")
    rows.

Definition ix_pairs (name : string) (rows : list index_row)
  : list (Z * string) :=
  (λ r, (st_SEQ_IN_INDEX r, st_COLUMN_NAME r)) <$>
  filter (λ r, st_INDEX_NAME r = name) rows.

Definition pos_le (a b : Z * string) : Prop := a.1 ≤ b.1.

Global Instance pos_le_dec a b : Decision (pos_le a b).
Proof. unfold pos_le. apply _. Defined.

(** The column names of an entity ordered by ascending position. *)
Definition by_position (pairs : list (Z * string)) : list string :=
  (merge_sort pos_le pairs).*2.

(** [cols] lists the columns of [pairs] by strictly ascending position. *)
Definition position_ordered (pairs : list (Z * string)) (cols : list string)
  : Prop :=
  ∃ ordered, ordered ≡ₚ pairs ∧ StronglySorted Z.lt ordered.*1 ∧
             cols = ordered.*2.

(** Positions are distinct within the primary key, within each unique
    constraint and within each index. *)
Definition distinct_positions (crows : list constraint_row)
    (irows : list index_row) : Prop :=
  NoDup (pk_pairs crows).*1 ∧
  NoDup ((λ r, (tc_CONSTRAINT_NAME r, kcu_ORDINAL_POSITION r)) <$>
         filter (λ r, tc_CONSTRAINT_TYPE r = "UNIQUE") crows) ∧
  NoDup ((λ r, (st_INDEX_NAME r, st_SEQ_IN_INDEX r)) <$> irows).

(** The rows of one foreign key, in arrival order. *)
Definition fk_rows_of (name : string) (rows : list fk_row) : list fk_row :=
  filter (λ r, fk_CONSTRAINT_NAME r = name) rows.

(** The grouping loop that the three bucket-building functions share:
    create the bucket of a new key from the row, then add the row to it. *)
Section bucket.
Context {R B : Type} (key : R → string) (init : R → B) (add : R → B → B).

Definition bucket_step (d : list (string * B)) (r : R) : list (string * B) :=
  Dict.update (key r) (add r)
    (if Dict.mem (key r) d then d else Dict.set (key r) (init r) d).

(** The bucket of [n] after the rows [rows]. *)
Definition bucket_of (n : string) (rows : list R) : option B :=
  match filter (λ r, key r = n) rows with
  | [] => None
  | r0 :: rs => Some (foldl (λ b r, add r b) (init r0) (r0 :: rs))
  end.
End bucket.

(** The two halves of the loop of [get_table_constraints], each on the
    rows it looks at. *)
Definition pk_assign (m : gmap Z string) (r : constraint_row) : gmap Z string :=
  <[kcu_ORDINAL_POSITION r := kcu_COLUMN_NAME r]> m.

Definition uq_step : list (string * gmap Z string) → constraint_row →
                     list (string * gmap Z string) :=
  bucket_step tc_CONSTRAINT_NAME (λ _, ∅) (λ r m, pk_assign m r).

(** The grouping loop of [get_table_indexes] in the same terms. *)
Definition ix_init (r : index_row) : index_bucket :=
  {| ib_name := st_INDEX_NAME r;
     ib_unique := bool_decide (st_NON_UNIQUE r = 0);
     ib_columns := ∅ |}.

Definition ix_add (r : index_row) (b : index_bucket) : index_bucket :=
  ib_add_column (st_SEQ_IN_INDEX r) (st_COLUMN_NAME r) b.

Definition ix_assign (m : gmap Z string) (r : index_row) : gmap Z string :=
  <[st_SEQ_IN_INDEX r := st_COLUMN_NAME r]> m.

Global Instance constraint_row_eq_dec : EqDecision constraint_row.
Proof. solve_decision. Defined.

Global Instance index_row_eq_dec : EqDecision index_row.
Proof. solve_decision. Defined.

Global Instance fk_row_eq_dec : EqDecision fk_row.
Proof. solve_decision. Defined.

(** Catalog rows of a table with the primary key [(id, tenant)] and the
    unique key [uq_ab (a, b)], once as the query orders them and once
    shuffled. *)
Definition sample_constraints : list constraint_row :=
  [ ConstraintRow "PRIMARY" "PRIMARY KEY" "id" 1;
    ConstraintRow "PRIMARY" "PRIMARY KEY" "tenant" 2;
    ConstraintRow "fk_x" "FOREIGN KEY" "x" 1;
    ConstraintRow "uq_ab" "UNIQUE" "a" 1;
    ConstraintRow "uq_ab" "UNIQUE" "b" 2 ].

Definition sample_constraints_shuffled : list constraint_row :=
  [ ConstraintRow "uq_ab" "UNIQUE" "b" 2;
    ConstraintRow "PRIMARY" "PRIMARY KEY" "tenant" 2;
    ConstraintRow "uq_ab" "UNIQUE" "a" 1;
    ConstraintRow "fk_x" "FOREIGN KEY" "x" 1;
    ConstraintRow "PRIMARY" "PRIMARY KEY" "id" 1 ].

Definition sample_indexes : list index_row :=
  [ IndexRow "PRIMARY" 0 1 "id";
    IndexRow "PRIMARY" 0 2 "tenant";
    IndexRow "ix_name" 1 1 "last";
    IndexRow "ix_name" 1 2 "first";
    IndexRow "Primary" 1 1 "x" ].

Definition sample_indexes_shuffled : list index_row :=
  [ IndexRow "ix_name" 1 2 "first";
    IndexRow "Primary" 1 1 "x";
    IndexRow "PRIMARY" 0 2 "tenant";
    IndexRow "ix_name" 1 1 "last";
    IndexRow "PRIMARY" 0 1 "id" ].

(** The grouping loop of [get_table_foreign_keys] in the same terms. *)
Definition fk_init (r : fk_row) : foreign_key :=
  {| fk_name := fk_CONSTRAINT_NAME r;
     fk_columns := [];
     fk_ref_table := fk_row_ref_table r;
     fk_ref_columns := [];
     fk_on_update := fk_UPDATE_RULE r;
     fk_on_delete := fk_DELETE_RULE r |}.

(** The rows of the foreign key [orders (customer_id, region)] to
    [customers (id, region)], in key order and the other way round. *)
Definition sample_fk_rows : list fk_row :=
  [ FkRow "fk_orders_customer" "customer_id" "customers" "id" "CASCADE" "RESTRICT";
    FkRow "fk_orders_customer" "region" "customers" "region" "CASCADE" "RESTRICT" ].

Definition sample_fk_rows_swapped : list fk_row :=
  [ FkRow "fk_orders_customer" "region" "customers" "region" "CASCADE" "RESTRICT";
    FkRow "fk_orders_customer" "customer_id" "customers" "id" "CASCADE" "RESTRICT" ].

(** ** The settings of a run *)

Definition config_of (ini : config_ini) : config_file :=
  match ini with
  | IniParsed sections => Parser sections
  | _ => EmptyDict
  end.

Definition config_trace (ini : config_ini) : list event :=
  match ini with
  | IniUnreadable => [Print MsgConfigWarning]
  | _ => []
  end.

(** A setting after the four-tier resolution. *)
Definition setting (w : world) (cli_arg : value) (env_var section key : string)
    (default : value) : value :=
  get_config_value (w_environ w) cli_arg env_var (config_of (w_config_ini w))
    section key default.

Definition db_host_of (w : world) : value :=
  setting w (opt_str (a_host (w_args w))) "DB_HOST" "database" "host"
    (VStr "localhost").
Definition db_name_of (w : world) : value :=
  setting w (opt_str (a_database (w_args w))) "DB_NAME" "database" "name"
    (VStr "").
Definition db_user_of (w : world) : value :=
  setting w (opt_str (a_user (w_args w))) "DB_USER" "database" "user" (VStr "").
Definition db_pass_of (w : world) : value :=
  setting w (opt_str (a_password (w_args w))) "DB_PASS" "database" "password"
    (VStr "").
Definition db_port_of (w : world) : value :=
  setting w (opt_int (a_port (w_args w))) "DB_PORT" "database" "port"
    (VInt 3306).
Definition table_filter_of (w : world) : value :=
  setting w (opt_str (a_filter (w_args w))) "TABLE_NAME_REGEXP" "export"
    "table_filter" (VStr ".*").
Definition output_dir_of (w : world) : value :=
  setting w (opt_str (a_output (w_args w))) "OUTPUT_DIR" "export" "output_dir"
    (VStr "./export").

Definition str_of (v : value) : string :=
  match v with VStr s => s | _ => "" end.

(** The filter that is compiled: the resolved one, delimiters stripped. *)
Definition effective_filter (w : world) : string :=
  strip_delimiters (str_of (table_filter_of w)).

Definition schema_version_of (w : world) : string :=
  default (w_today w) (w_environ w !! "SCHEMA_VERSION").

Definition output_file_of (w : world) : string :=
  os_path_join (str_of (output_dir_of w))
    ("schema_" +:+ str_of (db_name_of w) +:+ ".json").

(** The database name or the user is missing. *)
Definition missing_required (w : world) : Prop :=
  truthy (db_name_of w) = false ∨ truthy (db_user_of w) = false.

(** The status the shell sees; an uncaught exception ends Python with 1. *)
Definition exit_status (o : outcome) : Z :=
  match o with Exit code => code | Uncaught _ => 1 end.

Definition is_print (e : event) : Prop :=
  match e with Print _ => True | _ => False end.

(** The same world with another [--filter]. *)
Definition with_filter (table_filter : option string) (w : world) : world :=
  let a := w_args w in
  {| w_args := {| a_help := a_help a; a_host := a_host a;
                  a_database := a_database a; a_user := a_user a;
                  a_password := a_password a; a_port := a_port a;
                  a_output := a_output a; a_filter := table_filter |};
     w_environ := w_environ w;
     w_config_ini := w_config_ini w;
     w_today := w_today w;
     w_now := w_now w;
     w_mkdir_ok := w_mkdir_ok w;
     w_connect := w_connect w;
     w_write_ok := w_write_ok w |}.

(** ** The stages of [main]

    The parts of [main_body] that follow the resolution of the settings,
    written on the resolved settings. *)

Section stages.
Context {pattern : Type}.
Variable re_compile : string → option pattern.
Variable re_match : pattern → string → bool.
Variable py_int : string → option Z.
Variable str_upper : string → string.

(** From [pymysql.connect] on. *)
Definition connected_run (w : world) (db_port : Z) : M unit :=
  let db_name := str_of (db_name_of w) in
  let db_host := str_of (db_host_of w) in
  let db_user := str_of (db_user_of w) in
  let db_pass := str_of (db_pass_of w) in
  _ ← emit (Connect db_host db_port db_user db_pass db_name);
  match w_connect w db_host db_port db_user db_pass db_name with
  | None => _ ← print MsgConnectionFailed; sys_exit 1
  | Some conn =>
      _ ← print (MsgConnected db_name db_host);
      finally
        (export_schema re_compile re_match str_upper w conn db_name
           (effective_filter w) (output_file_of w) (schema_version_of w))
        [CloseConnection]
  end.

(** From the validation of the filter on. *)
Definition validated_run (w : world) (db_port : Z) : M unit :=
  match re_compile (effective_filter w) with
  | None => _ ← print (MsgInvalidRegex (effective_filter w)); sys_exit 1
  | Some _ =>
      _ ← emit (Mkdir (str_of (output_dir_of w)));
      if negb (w_mkdir_ok w (str_of (output_dir_of w))) then raise "OSError"
      else connected_run w db_port
  end.

Definition usage_exit : M unit :=
  _ ← print MsgRequired;
  _ ← print MsgUseArguments;
  _ ← print MsgRunHelp;
  sys_exit 1.

(** From the conversion of the port on. *)
Definition resolved_run (w : world) : M unit :=
  db_port ← int_ py_int (db_port_of w);
  if negb (truthy (db_name_of w)) || negb (truthy (db_user_of w))
  then usage_exit
  else validated_run w db_port.

(** The run gets as far as listing the tables: no [--help], the port
    converts, name and user are there, the filter compiles to [pat],
    the output directory can be made and the server answers with
    [conn]. *)
Definition reaches_export (w : world) (db_port : Z) (pat : pattern)
    (conn : connection) : Prop :=
  a_help (w_args w) = false ∧
  int_ py_int (db_port_of w) = mret db_port ∧
  truthy (db_name_of w) = true ∧
  truthy (db_user_of w) = true ∧
  re_compile (effective_filter w) = Some pat ∧
  w_mkdir_ok w (str_of (output_dir_of w)) = true ∧
  w_connect w (str_of (db_host_of w)) db_port (str_of (db_user_of w))
    (str_of (db_pass_of w)) (str_of (db_name_of w)) = Some conn.
End stages.

(** ** Further specification-side definitions *)

(** The distinct elements of a list in the order of their first
    occurrence: the order in which a Python [dict] lists its keys. *)
Fixpoint first_occurrences (l : list string) : list string :=
  match l with
  | [] => []
  | x :: l' => x :: filter (λ y, y ≠ x) (first_occurrences l')
  end.

(** The column of the last pair that carries the position [pos]. *)
Definition last_col (pos : Z) (pairs : list (Z * string)) : option string :=
  last (filter (λ p, p.1 = pos) pairs).*2.

(** The rows of one index, in arrival order. *)
Definition ix_rows_of (name : string) (rows : list index_row) : list index_row :=
  filter (λ r, st_INDEX_NAME r = name) rows.

(** What one exported table adds to the trace: its progress line, then
    its six queries. *)
Definition table_events (db_name : string) (total_tables current_table : nat)
    (table : string) : list event :=
  [ Print (MsgProcessingTable current_table total_tables table);
    Execute (QColumns db_name table);
    Execute (QTableConstraints db_name table);
    Execute (QStatistics db_name table);
    Execute (QForeignKeys db_name table);
    Execute (QTables db_name table);
    Execute (QShowCreateTable table) ].

(** The trace of the tables [selected], numbered from [current_table + 1]. *)
Fixpoint progress_events (db_name : string) (total_tables current_table : nat)
    (selected : list string) : list event :=
  match selected with
  | [] => []
  | table :: rest =>
      table_events db_name total_tables (S current_table) table ++
      progress_events db_name total_tables (S current_table) rest
  end.

(** The same world with another state of [config.ini]. *)
Definition with_ini (ini : config_ini) (w : world) : world :=
  {| w_args := w_args w;
     w_environ := w_environ w;
     w_config_ini := ini;
     w_today := w_today w;
     w_now := w_now w;
     w_mkdir_ok := w_mkdir_ok w;
     w_connect := w_connect w;
     w_write_ok := w_write_ok w |}.

Definition is_execute (e : event) : bool :=
  match e with Execute _ => true | _ => false end.

(** The six queries of one table, in the order [main] issues them. *)
Definition table_queries (db_name table : string) : list query :=
  [ QColumns db_name table; QTableConstraints db_name table;
    QStatistics db_name table; QForeignKeys db_name table;
    QTables db_name table; QShowCreateTable table ].

(** Worlds around [shop] in which the server refuses the connection, or
    the output file cannot be written. *)
Definition offline_world (a : args) : world :=
  {| w_args := a;
     w_environ := ∅;
     w_config_ini := IniMissing;
     w_today := "2024-01-01";
     w_now := "2024-01-01T00:00:00";
     w_mkdir_ok := λ _, true;
     w_connect := λ _ _ _ _ _, None;
     w_write_ok := λ _, true |}.

Definition readonly_world (a : args) : world :=
  {| w_args := a;
     w_environ := ∅;
     w_config_ini := IniMissing;
     w_today := "2024-01-01";
     w_now := "2024-01-01T00:00:00";
     w_mkdir_ok := λ _, true;
     w_connect := λ _ _ _ _ _, Some shop;
     w_write_ok := λ _, false |}.

(** The pattern the fragment compiles from [user]. *)
Definition user_pattern : Re.regex :=
  Re.Cat (Re.Chr "u") (Re.Cat (Re.Chr "s") (Re.Cat (Re.Chr "e")
    (Re.Cat (Re.Chr "r") Re.Eps))).

(** A world whose environment sets [DB_PORT] to a word. *)
Definition bad_port_world (a : args) : world :=
  {| w_args := a;
     w_environ := {["DB_PORT" := "mysql"]};
     w_config_ini := IniMissing;
     w_today := "2024-01-01";
     w_now := "2024-01-01T00:00:00";
     w_mkdir_ok := λ _, true;
     w_connect := λ _ _ _ _ _, Some shop;
     w_write_ok := λ _, true |}.

(** * Proofs *)

(** ** Insertion-ordered dictionaries *)

Section dict_lemmas.
Context {K V : Type} `{EqDecision K}.
Implicit Types (d : list (K * V)) (k : K) (v : V).

Lemma dict_get_set_eq k v d : Dict.get k (Dict.set k v d) = Some v.
Proof.
  induction d as [|[k' v'] d IH]; simpl.
  - by rewrite decide_True.
  - destruct (decide (k = k')) as [->|Hne]; simpl.
    + by rewrite decide_True.
    + by rewrite decide_False.
Qed.

Lemma dict_get_set_ne k k' v d :
  k ≠ k' → Dict.get k' (Dict.set k v d) = Dict.get k' d.
Proof.
  intros Hne. induction d as [|[k0 v0] d IH]; simpl.
  - by rewrite decide_False.
  - destruct (decide (k = k0)) as [->|Hk]; simpl.
    + by rewrite !decide_False by done.
    + destruct (decide (k' = k0)); done.
Qed.

Lemma dict_get_None k d : Dict.get k d = None ↔ k ∉ Dict.keys d.
Proof.
  unfold Dict.keys. induction d as [|[k' v'] d IH]; csimpl.
  - split; [intros _; apply not_elem_of_nil | done].
  - rewrite not_elem_of_cons. destruct (decide (k = k')) as [->|Hne].
    + split; [done|]. intros [? _]; done.
    + rewrite IH. split; [by intros ?|by intros [_ ?]].
Qed.

Lemma dict_get_Some_elem k v d : Dict.get k d = Some v → (k, v) ∈ d.
Proof.
  induction d as [|[k' v'] d IH]; simpl; [done|].
  destruct (decide (k = k')) as [->|]; intros Hg.
  - injection Hg as ->. apply elem_of_cons; by left.
  - apply elem_of_cons; right; auto.
Qed.

Lemma dict_elem_get k v d :
  NoDup (Dict.keys d) → (k, v) ∈ d → Dict.get k d = Some v.
Proof.
  unfold Dict.keys. induction d as [|[k' v'] d IH]; csimpl.
  - intros _ Hin. by apply elem_of_nil in Hin.
  - rewrite NoDup_cons. intros [Hk' Hnd] Hin.
    apply elem_of_cons in Hin as [Heq|Hin].
    + injection Heq as -> ->. by rewrite decide_True.
    + rewrite decide_False; [by apply IH|].
      intros ->. apply Hk'. apply list_elem_of_fmap. by exists (k', v).
Qed.

Lemma dict_keys_set k v d :
  Dict.keys (Dict.set k v d) =
  if Dict.mem k d then Dict.keys d else Dict.keys d ++ [k].
Proof.
  unfold Dict.keys, Dict.mem. induction d as [|[k' v'] d IH]; csimpl; [done|].
  destruct (decide (k = k')) as [->|]; csimpl; [done|].
  rewrite IH. by destruct (Dict.get k d).
Qed.

Lemma dict_mem_true k d : Dict.mem k d = true ↔ k ∈ Dict.keys d.
Proof.
  unfold Dict.mem. destruct (Dict.get k d) eqn:Hg.
  - split; [intros _|done]. apply dict_get_Some_elem in Hg.
    apply list_elem_of_fmap. by exists (k, v).
  - apply dict_get_None in Hg. split; [done|]. intros; contradiction.
Qed.

Lemma dict_keys_set_NoDup k v d :
  NoDup (Dict.keys d) → NoDup (Dict.keys (Dict.set k v d)).
Proof.
  intros Hnd. rewrite dict_keys_set.
  destruct (Dict.mem k d) eqn:Hm; [done|].
  apply NoDup_app. split_and!; [done| |apply NoDup_singleton].
  intros x Hx ->%list_elem_of_singleton.
  apply dict_mem_true in Hx. congruence.
Qed.

Lemma dict_keys_set_elem k k' v d :
  k' ∈ Dict.keys (Dict.set k v d) ↔ k' = k ∨ k' ∈ Dict.keys d.
Proof.
  rewrite dict_keys_set. destruct (Dict.mem k d) eqn:Hm.
  - apply dict_mem_true in Hm. split; [by right|]. by intros [->|?].
  - rewrite elem_of_app, list_elem_of_singleton. tauto.
Qed.

Lemma dict_get_update_eq k (f : V → V) d :
  Dict.get k (Dict.update k f d) = f <$> Dict.get k d.
Proof.
  unfold Dict.update. destruct (Dict.get k d) eqn:Hg; simpl.
  - apply dict_get_set_eq.
  - done.
Qed.

Lemma dict_get_update_ne k k' (f : V → V) d :
  k ≠ k' → Dict.get k' (Dict.update k f d) = Dict.get k' d.
Proof.
  intros Hne. unfold Dict.update. destruct (Dict.get k d); [|done].
  by apply dict_get_set_ne.
Qed.

Lemma dict_keys_update k (f : V → V) d :
  Dict.keys (Dict.update k f d) = Dict.keys d.
Proof.
  unfold Dict.update. destruct (Dict.get k d) eqn:Hg; [|done].
  rewrite dict_keys_set. unfold Dict.mem. by rewrite Hg.
Qed.
End dict_lemmas.

(** ** The grouping loop *)

Section bucket_lemmas.
Context {R B : Type} (key : R → string) (init : R → B) (add : R → B → B).

Lemma bucket_of_snoc n rows r :
  bucket_of key init add n (rows ++ [r]) =
  if decide (key r = n)
  then Some (add r (default (init r) (bucket_of key init add n rows)))
  else bucket_of key init add n rows.
Proof.
  unfold bucket_of. rewrite filter_app, filter_cons, filter_nil.
  destruct (decide (key r = n)) as [Hk|Hk].
  - destruct (filter _ rows) as [|r0 rs]; [done|].
    cbn [app default]. f_equal. by rewrite (app_comm_cons rs), foldl_app.
  - by rewrite app_nil_r.
Qed.

Lemma bucket_step_get d r n :
  Dict.get n (bucket_step key init add d r) =
  if decide (key r = n)
  then Some (add r (default (init r) (Dict.get n d)))
  else Dict.get n d.
Proof.
  unfold bucket_step. destruct (decide (key r = n)) as [<-|Hne].
  - rewrite dict_get_update_eq. unfold Dict.mem.
    destruct (Dict.get (key r) d) eqn:Hg.
    + by rewrite Hg.
    + by rewrite dict_get_set_eq.
  - rewrite dict_get_update_ne by done.
    destruct (Dict.mem (key r) d); [done|]. by apply dict_get_set_ne.
Qed.

Lemma bucket_step_keys d r :
  Dict.keys (bucket_step key init add d r) =
  if Dict.mem (key r) d then Dict.keys d else Dict.keys d ++ [key r].
Proof.
  unfold bucket_step. rewrite dict_keys_update.
  destruct (Dict.mem (key r) d) eqn:Hm; [done|].
  by rewrite dict_keys_set, Hm.
Qed.

(** What the loop leaves under each name. *)
Lemma bucket_fold_get rows n :
  Dict.get n (foldl (bucket_step key init add) [] rows) =
  bucket_of key init add n rows.
Proof.
  induction rows as [|r rows IH] using rev_ind; [done|].
  by rewrite foldl_app, bucket_of_snoc, <-IH, <-bucket_step_get.
Qed.

Lemma bucket_fold_NoDup rows :
  NoDup (Dict.keys (foldl (bucket_step key init add) [] rows)).
Proof.
  induction rows as [|r rows IH] using rev_ind; [apply NoDup_nil_2|].
  rewrite foldl_app. cbn [foldl]. rewrite bucket_step_keys.
  destruct (Dict.mem _ _) eqn:Hm; [done|].
  apply NoDup_app. split_and!; [done| |apply NoDup_singleton].
  intros x Hx ->%list_elem_of_singleton.
  apply dict_mem_true in Hx. congruence.
Qed.

(** The names under which the loop leaves a bucket are the names of the
    rows. *)
Lemma bucket_fold_keys rows n :
  n ∈ Dict.keys (foldl (bucket_step key init add) [] rows) ↔ n ∈ key <$> rows.
Proof.
  induction rows as [|r rows IH] using rev_ind; [done|].
  rewrite foldl_app. cbn [foldl]. rewrite bucket_step_keys, fmap_app.
  rewrite (elem_of_app (key <$> rows)), <-IH. cbn. rewrite list_elem_of_singleton.
  destruct (Dict.mem _ _) eqn:Hm.
  - apply dict_mem_true in Hm. split; [by left|]. by intros [?| ->].
  - by rewrite elem_of_app, list_elem_of_singleton.
Qed.

Lemma bucket_fold_elem rows n b :
  (n, b) ∈ foldl (bucket_step key init add) [] rows ↔
  bucket_of key init add n rows = Some b.
Proof.
  rewrite <-bucket_fold_get. split.
  - apply dict_elem_get, bucket_fold_NoDup.
  - apply dict_get_Some_elem.
Qed.
End bucket_lemmas.

(** ** Flattening a position dictionary *)

Global Instance pos_le_total : Total pos_le.
Proof. intros a b. unfold pos_le. lia. Qed.

Global Instance pos_le_trans : Transitive pos_le.
Proof. intros a b c. unfold pos_le. lia. Qed.

(** Every key the comprehension visits is a key of the dictionary: the
    subscript cannot fail. *)
Lemma sorted_cols_total (cols : gmap Z string) : is_Some (sorted_cols cols).
Proof.
  apply mapM_is_Some, Forall_forall. intros pos Hpos. unfold sorted_keys in Hpos.
  rewrite merge_sort_Permutation in Hpos.
  apply list_elem_of_fmap in Hpos as [[k v] [-> Hkv]].
  apply elem_of_map_to_list in Hkv. cbn. by rewrite Hkv.
Qed.

Lemma sorted_keys_sorted (cols : gmap Z string) :
  StronglySorted Z.lt (sorted_keys cols).
Proof.
  assert (Hle : StronglySorted Z.le (sorted_keys cols))
    by apply (StronglySorted_merge_sort Z.le).
  assert (Hnd : NoDup (sorted_keys cols)).
  { unfold sorted_keys. rewrite merge_sort_Permutation.
    apply NoDup_fst_map_to_list. }
  induction Hle as [|k l Hl IH Hk]; [constructor|].
  apply NoDup_cons in Hnd as [Hkl Hnd]. constructor; [by apply IH|].
  apply Forall_forall. intros k' Hk'.
  rewrite Forall_forall in Hk. specialize (Hk _ Hk').
  assert (k ≠ k') by (intros ->; done). lia.
Qed.

Lemma pairs_functional (pairs : list (Z * string)) k v v' :
  NoDup pairs.*1 → (k, v) ∈ pairs → (k, v') ∈ pairs → v = v'.
Proof.
  induction pairs as [|[k0 v0] pairs IH]; csimpl.
  - intros _ Hin. by apply elem_of_nil in Hin.
  - rewrite NoDup_cons. intros [Hk0 Hnd] Hv Hv'.
    assert (Hfresh : ∀ w, (k0, w) ∉ pairs).
    { intros w Hw. apply Hk0. apply list_elem_of_fmap. by exists (k0, w). }
    apply elem_of_cons in Hv as [Hv|Hv], Hv' as [Hv'|Hv'].
    + congruence.
    + injection Hv as -> ->. by apply Hfresh in Hv'.
    + injection Hv' as -> ->. by apply Hfresh in Hv.
    + by apply IH.
Qed.

(** Which list of the same pairs is sorted does not depend on the order
    the pairs came in. *)
Lemma by_position_perm (pairs pairs' : list (Z * string)) :
  pairs' ≡ₚ pairs → NoDup pairs.*1 → by_position pairs' = by_position pairs.
Proof.
  intros Hp Hnd. unfold by_position. f_equal.
  apply (Sorted_unique_strong pos_le).
  - intros [k v] [k' v']. rewrite !merge_sort_Permutation, Hp.
    unfold pos_le; cbn. intros Hx Hx' ??.
    assert (k = k') as <- by lia. f_equal. by eapply pairs_functional.
  - apply (Sorted_merge_sort pos_le).
  - apply (Sorted_merge_sort pos_le).
  - by rewrite !merge_sort_Permutation.
Qed.

(** [by_position] does list the columns by strictly ascending position. *)
Lemma by_position_ordered (pairs : list (Z * string)) :
  NoDup pairs.*1 → position_ordered pairs (by_position pairs).
Proof.
  intros Hnd. exists (merge_sort pos_le pairs).
  split_and!; [apply merge_sort_Permutation| |done].
  assert (Hle : StronglySorted Z.le (merge_sort pos_le pairs).*1).
  { eapply StronglySorted_fmap; [|apply (StronglySorted_merge_sort pos_le)].
    by intros [] []. }
  assert (Hnd' : NoDup (merge_sort pos_le pairs).*1)
    by (by rewrite merge_sort_Permutation).
  induction Hle as [|k l Hl IH Hk]; [constructor|].
  apply NoDup_cons in Hnd' as [Hkl Hnd']. constructor; [by apply IH|].
  apply Forall_forall. intros k' Hk'.
  rewrite Forall_forall in Hk. specialize (Hk _ Hk').
  assert (k ≠ k') by (intros ->; done). lia.
Qed.

(** A dictionary that holds exactly [pairs] flattens to [by_position]. *)
Lemma sorted_cols_by_position (cols : gmap Z string) (pairs : list (Z * string)) :
  NoDup pairs.*1 →
  (∀ k v, cols !! k = Some v ↔ (k, v) ∈ pairs) →
  sorted_cols cols = Some (by_position pairs).
Proof.
  intros Hnd Hcols.
  assert (Hperm : map_to_list cols ≡ₚ pairs).
  { apply NoDup_Permutation.
    - apply NoDup_map_to_list.
    - by eapply NoDup_fmap_1.
    - intros [k v]. by rewrite elem_of_map_to_list. }
  assert (Hkeys : sorted_keys cols = (merge_sort pos_le pairs).*1).
  { apply (Sorted_unique Z.le).
    - apply (Sorted_merge_sort Z.le).
    - eapply Sorted_fmap; [|apply (Sorted_merge_sort pos_le)]. by intros [] [].
    - unfold sorted_keys. by rewrite !merge_sort_Permutation, Hperm. }
  unfold sorted_cols, by_position. rewrite Hkeys.
  apply mapM_Some, Forall2_fmap, Forall_Forall2_diag, Forall_forall.
  intros [k v] Hkv. cbn. apply Hcols. by rewrite merge_sort_Permutation in Hkv.
Qed.

(** The dictionary a loop of assignments [d[pos] = col] builds. *)
Lemma foldl_insert_lookup {R} (pos : R → Z) (col : R → string) (rows : list R) :
  NoDup (pos <$> rows) →
  ∀ k v, foldl (λ m r, <[pos r := col r]> m) (∅ : gmap Z string) rows !! k = Some v ↔
         (k, v) ∈ (λ r, (pos r, col r)) <$> rows.
Proof.
  induction rows as [|r rows IH] using rev_ind; intros Hnd k v.
  - cbn. rewrite lookup_empty. split; [done|]. by intros ?%elem_of_nil.
  - rewrite fmap_app in Hnd. apply NoDup_app in Hnd as (Hnd & Hfresh & _).
    rewrite foldl_app, fmap_app, elem_of_app. cbn.
    rewrite list_elem_of_singleton, lookup_insert.
    destruct (decide (pos r = k)) as [<-|Hne].
    + split; [intros [= <-]; by right|]. intros [Hin|[= <-]]; [|done].
      exfalso. apply (Hfresh (pos r)); [|by apply list_elem_of_singleton].
      apply list_elem_of_fmap in Hin as (r' & [= Hp _] & Hr').
      rewrite Hp. by apply list_elem_of_fmap_2.
    + rewrite IH by done. split; [by left|]. intros [?|[= ? _]]; [done|congruence].
Qed.

Lemma sorted_cols_rows {R} (pos : R → Z) (col : R → string) (rs rs' : list R) :
  rs' ≡ₚ rs → NoDup (pos <$> rs) →
  sorted_cols (foldl (λ m r, <[pos r := col r]> m) ∅ rs') =
  Some (by_position ((λ r, (pos r, col r)) <$> rs)).
Proof.
  intros Hp Hnd.
  assert (Hnd' : NoDup (pos <$> rs')) by (by rewrite Hp).
  rewrite <-(by_position_perm _ ((λ r, (pos r, col r)) <$> rs')).
  - apply sorted_cols_by_position.
    + by rewrite <-list_fmap_compose.
    + by apply foldl_insert_lookup.
  - by rewrite Hp.
  - by rewrite <-list_fmap_compose.
Qed.

(** Distinct (name, position) pairs give distinct positions under each
    name. *)
Lemma NoDup_positions_of {R} (key : R → string) (pos : R → Z) n (rows : list R) :
  NoDup ((λ r, (key r, pos r)) <$> rows) →
  NoDup (pos <$> filter (λ r, key r = n) rows).
Proof.
  induction rows as [|r rows IH]; csimpl; [intros _; apply NoDup_nil_2|].
  rewrite NoDup_cons. intros [Hr Hnd]. rewrite filter_cons.
  destruct (decide (key r = n)) as [Hk|]; [|by apply IH].
  csimpl. apply NoDup_cons. split; [|by apply IH].
  intros Hin. apply Hr.
  apply list_elem_of_fmap in Hin as (r' & Hp & Hr').
  apply list_elem_of_filter in Hr' as [Hk' Hr'].
  apply list_elem_of_fmap. exists r'. split; [congruence|done].
Qed.

Lemma mapM_elem_r {A B} (f : A → option B) l k y :
  mapM f l = Some k → y ∈ k → ∃ x, x ∈ l ∧ f x = Some y.
Proof.
  intros Hm%mapM_Some [i Hi]%list_elem_of_lookup.
  destruct (Forall2_lookup_r _ _ _ _ _ Hm Hi) as (x & Hx & Hf).
  exists x. split; [|done]. apply list_elem_of_lookup. by exists i.
Qed.

Lemma mapM_elem_l {A B} (f : A → option B) l k x :
  mapM f l = Some k → x ∈ l → ∃ y, y ∈ k ∧ f x = Some y.
Proof.
  intros Hm%mapM_Some [i Hi]%list_elem_of_lookup.
  destruct (Forall2_lookup_l _ _ _ _ _ Hm Hi) as (y & Hy & Hf).
  exists y. split; [|done]. apply list_elem_of_lookup. by exists i.
Qed.

(** ** get_table_constraints *)

(** The loop treats the two kinds of rows independently. *)
Lemma constraints_buckets_split rows :
  constraints_buckets rows =
  (foldl pk_assign ∅ (filter (λ r, tc_CONSTRAINT_TYPE r = "PRIMARY KEY") rows),
   foldl uq_step [] (filter (λ r, tc_CONSTRAINT_TYPE r = "UNIQUE") rows)).
Proof.
  unfold constraints_buckets.
  generalize (∅ : gmap Z string) ([] : list (string * gmap Z string)).
  induction rows as [|r rows IH]; intros pk uq; [done|].
  cbn [foldl]. rewrite !filter_cons. unfold constraints_step at 2.
  destruct (decide (tc_CONSTRAINT_TYPE r = "PRIMARY KEY")) as [Hpk|Hpk].
  - rewrite decide_False by (by rewrite Hpk). by rewrite IH.
  - destruct (decide (tc_CONSTRAINT_TYPE r = "UNIQUE")); by rewrite IH.
Qed.

Lemma get_table_constraints_total rows : is_Some (get_table_constraints rows).
Proof.
  unfold get_table_constraints. destruct (constraints_buckets rows) as [pk uq].
  destruct (sorted_cols_total pk) as [cols ->]. cbn.
  assert (Huq : is_Some (mapM flatten_unique uq)).
  { apply mapM_is_Some, Forall_forall. intros [n m] _. cbn.
    unfold flatten_unique. cbn. by destruct (sorted_cols_total m) as [? ->]. }
  by destruct Huq as [? ->].
Qed.

Lemma uq_bucket_of n rows m :
  bucket_of tc_CONSTRAINT_NAME (λ _, ∅) (λ r m, pk_assign m r) n rows = Some m →
  m = foldl pk_assign ∅ (filter (λ r, tc_CONSTRAINT_NAME r = n) rows).
Proof.
  unfold bucket_of. destruct (filter _ rows); [done|]. by intros [= <-].
Qed.

Lemma constraints_by_position (rows rows' : list constraint_row) :
  rows' ≡ₚ rows →
  NoDup (pk_pairs rows).*1 →
  NoDup ((λ r, (tc_CONSTRAINT_NAME r, kcu_ORDINAL_POSITION r)) <$>
         filter (λ r, tc_CONSTRAINT_TYPE r = "UNIQUE") rows) →
  ∃ pk uqs,
    get_table_constraints rows' = Some (pk, uqs) ∧
    pk = by_position (pk_pairs rows) ∧
    ∀ u, u ∈ uqs → uq_columns u = by_position (uq_pairs (uq_name u) rows).
Proof.
  intros Hp Hpk Huq.
  destruct (get_table_constraints_total rows') as [[pk uqs] Hg].
  exists pk, uqs. split; [done|].
  unfold get_table_constraints in Hg.
  rewrite constraints_buckets_split in Hg.
  assert (Hpk' : sorted_cols
            (foldl pk_assign ∅
               (filter (λ r, tc_CONSTRAINT_TYPE r = "PRIMARY KEY") rows')) =
          Some (by_position (pk_pairs rows))).
  { apply (sorted_cols_rows kcu_ORDINAL_POSITION kcu_COLUMN_NAME).
    - by rewrite Hp.
    - unfold pk_pairs in Hpk. by rewrite <-list_fmap_compose in Hpk. }
  rewrite Hpk' in Hg. cbn in Hg.
  destruct (mapM flatten_unique _) as [uqs'|] eqn:Hm; [|done].
  injection Hg as <- <-. split; [done|].
  intros u Hu. destruct (mapM_elem_r _ _ _ _ Hm Hu) as ([n m] & Hnm & Hf).
  apply bucket_fold_elem, uq_bucket_of in Hnm.
  unfold flatten_unique in Hf. cbn in Hf.
  destruct (sorted_cols m) as [cols|] eqn:Hcols; [|done].
  injection Hf as <-. cbn. rewrite Hnm in Hcols.
  rewrite list_filter_filter in Hcols.
  assert (Hcols' : sorted_cols
            (foldl pk_assign ∅
               (filter (λ r, tc_CONSTRAINT_NAME r = n ∧
                             tc_CONSTRAINT_TYPE r = "UNIQUE") rows')) =
          Some (by_position (uq_pairs n rows))).
  { apply (sorted_cols_rows kcu_ORDINAL_POSITION kcu_COLUMN_NAME).
    - by rewrite Hp.
    - rewrite <-list_filter_filter. by apply NoDup_positions_of. }
  congruence.
Qed.

(** The names of the unique constraints in the output are those of the
    [UNIQUE] rows. *)
Lemma constraints_unique_names rows pk uqs n :
  get_table_constraints rows = Some (pk, uqs) →
  n ∈ uq_name <$> uqs ↔
  n ∈ tc_CONSTRAINT_NAME <$> filter (λ r, tc_CONSTRAINT_TYPE r = "UNIQUE") rows.
Proof.
  unfold get_table_constraints. rewrite constraints_buckets_split.
  destruct (sorted_cols _) as [cols|]; [|done]. cbn.
  destruct (mapM flatten_unique _) as [uqs'|] eqn:Hm; [|done].
  intros [= _ <-].
  rewrite <-(bucket_fold_keys tc_CONSTRAINT_NAME (λ _, ∅) (λ r m, pk_assign m r)).
  fold uq_step. unfold Dict.keys. rewrite !list_elem_of_fmap. split.
  - intros (u & -> & Hu).
    destruct (mapM_elem_r _ _ _ _ Hm Hu) as (item & Hitem & Hf).
    exists item. split; [|done]. unfold flatten_unique in Hf.
    destruct (sorted_cols item.2); [|done]. by injection Hf as <-.
  - intros (item & -> & Hitem).
    destruct (mapM_elem_l _ _ _ _ Hm Hitem) as (u & Hu & Hf).
    exists u. split; [|done]. unfold flatten_unique in Hf.
    destruct (sorted_cols item.2); [|done]. by injection Hf as <-.
Qed.

(** ** get_table_indexes *)

Lemma index_step_bucket d r :
  index_step d r = bucket_step st_INDEX_NAME ix_init ix_add d r.
Proof. reflexivity. Qed.

Lemma index_buckets_fold rows :
  index_buckets rows = foldl (bucket_step st_INDEX_NAME ix_init ix_add) [] rows.
Proof. reflexivity. Qed.

Lemma ib_columns_fold rs b0 :
  ib_columns (foldl (λ b r, ix_add r b) b0 rs) = foldl ix_assign (ib_columns b0) rs.
Proof. revert b0. induction rs as [|r rs IH]; intros b0; [done|]. cbn. by rewrite IH. Qed.

Lemma index_bucket_columns rows n b :
  (n, b) ∈ index_buckets rows →
  ib_columns b = foldl ix_assign ∅ (filter (λ r, st_INDEX_NAME r = n) rows).
Proof.
  rewrite index_buckets_fold, bucket_fold_elem. unfold bucket_of.
  destruct (filter _ rows) as [|r0 rs]; [done|]. intros [= <-].
  by rewrite ib_columns_fold.
Qed.

Section indexes.
Variable str_upper : string → string.

Lemma get_table_indexes_total rows : is_Some (get_table_indexes str_upper rows).
Proof.
  apply mapM_is_Some, Forall_forall. intros [n b] _. cbn.
  unfold flatten_index. cbn. by destruct (sorted_cols_total (ib_columns b)) as [? ->].
Qed.

(** An index of the output comes from the bucket of its name, and that
    bucket passed the test of the second loop. *)
Lemma get_table_indexes_elem rows ixs i :
  get_table_indexes str_upper rows = Some ixs → i ∈ ixs →
  str_upper (ix_name i) ≠ "PRIMARY" ∧
  ∃ b, (ix_name i, b) ∈ index_buckets rows ∧
       sorted_cols (ib_columns b) = Some (ix_columns i).
Proof.
  intros Hm Hi. destruct (mapM_elem_r _ _ _ _ Hm Hi) as ([n b] & Hnb & Hf).
  apply list_elem_of_filter in Hnb as [Hsec Hnb].
  unfold flatten_index in Hf. cbn in Hf.
  destruct (sorted_cols (ib_columns b)) as [cols|] eqn:Hcols; [|done].
  injection Hf as <-. cbn. split.
  - unfold is_secondary in Hsec. cbn in Hsec.
    by apply Is_true_true, negb_true_iff, bool_decide_eq_false in Hsec.
  - by exists b.
Qed.

Lemma indexes_by_position (rows rows' : list index_row) :
  rows' ≡ₚ rows →
  NoDup ((λ r, (st_INDEX_NAME r, st_SEQ_IN_INDEX r)) <$> rows) →
  ∃ ixs, get_table_indexes str_upper rows' = Some ixs ∧
         ∀ i, i ∈ ixs → ix_columns i = by_position (ix_pairs (ix_name i) rows).
Proof.
  intros Hp Hnd. destruct (get_table_indexes_total rows') as [ixs Hixs].
  exists ixs. split; [done|]. intros i Hi.
  destruct (get_table_indexes_elem _ _ _ Hixs Hi) as (_ & b & Hb & Hcols).
  apply index_bucket_columns in Hb. rewrite Hb in Hcols.
  assert (Hcols' : sorted_cols
            (foldl ix_assign ∅ (filter (λ r, st_INDEX_NAME r = ix_name i) rows')) =
          Some (by_position (ix_pairs (ix_name i) rows))).
  { apply (sorted_cols_rows st_SEQ_IN_INDEX st_COLUMN_NAME).
    - by rewrite Hp.
    - by apply NoDup_positions_of. }
  congruence.
Qed.
End indexes.

Example get_table_constraints_shuffled :
  get_table_constraints sample_constraints_shuffled
  = Some (["id"; "tenant"], [UniqueConstraint "uq_ab" ["a"; "b"]]).
Proof. vm_compute. reflexivity. Qed.

Example get_table_indexes_shuffled :
  get_table_indexes Ascii7.upper sample_indexes_shuffled
  = Some [Index "ix_name" false ["last"; "first"]].
Proof. vm_compute. reflexivity. Qed.

(** The strictly ascending arrangement of an entity's rows is unique, so
    [position_ordered] determines the column list. *)
Lemma position_ordered_unique pairs cols cols' :
  NoDup pairs.*1 →
  position_ordered pairs cols → position_ordered pairs cols' → cols = cols'.
Proof.
  intros Hnd (l & Hl & Hs & ->) (l' & Hl' & Hs' & ->). f_equal.
  apply (StronglySorted_unique_strong pos_le); [| | |by rewrite Hl, Hl'].
  - intros [k v] [k' v']. rewrite Hl, Hl'. unfold pos_le; cbn. intros ????.
    assert (k = k') as <- by lia. f_equal. by eapply pairs_functional.
  - clear -Hs. induction l as [|[k v] l IH]; [constructor|].
    csimpl in Hs. apply StronglySorted_inv in Hs as [Hs Hk].
    constructor; [by apply IH|]. rewrite Forall_fmap in Hk.
    eapply Forall_impl; [exact Hk|]. intros [] ?; unfold pos_le; cbn in *. lia.
  - clear -Hs'. induction l' as [|[k v] l IH]; [constructor|].
    csimpl in Hs'. apply StronglySorted_inv in Hs' as [Hs Hk].
    constructor; [by apply IH|]. rewrite Forall_fmap in Hk.
    eapply Forall_impl; [exact Hk|]. intros [] ?; unfold pos_le; cbn in *. lia.
Qed.

(** Every index of the rows whose name is not [PRIMARY] once upper-cased
    has its entry in the output. *)
Lemma get_table_indexes_covers (str_upper : string → string)
    (rows : list index_row) (ixs : list index) (r : index_row) :
  get_table_indexes str_upper rows = Some ixs →
  r ∈ rows → str_upper (st_INDEX_NAME r) ≠ "PRIMARY" →
  st_INDEX_NAME r ∈ ix_name <$> ixs.
Proof.
  intros Hixs Hr Hup.
  assert (Hk : st_INDEX_NAME r ∈ Dict.keys (index_buckets rows)).
  { rewrite index_buckets_fold. apply bucket_fold_keys.
    by apply list_elem_of_fmap_2. }
  apply list_elem_of_fmap in Hk as ([n b] & Hn & Hnb). cbn in Hn. subst n.
  assert (Hsel : (st_INDEX_NAME r, b) ∈
            filter (λ item, is_secondary str_upper item) (index_buckets rows)).
  { apply list_elem_of_filter. split; [|done]. unfold is_secondary. cbn.
    by apply Is_true_true, negb_true_iff, bool_decide_eq_false. }
  destruct (mapM_elem_l _ _ _ _ Hixs Hsel) as (i & Hi & Hf).
  apply list_elem_of_fmap. exists i. split; [|done].
  unfold flatten_index in Hf. cbn in Hf.
  destruct (sorted_cols (ib_columns b)); [|done]. by injection Hf as <-.
Qed.

(** C1. Whatever the order [crows'], [irows'] in which the catalog rows
    [crows], [irows] arrive, the primary key, every unique constraint and
    every secondary index comes out with its column names ordered by
    strictly ascending ordinal position (positions being distinct within
    an entity); every unique constraint of the rows, and every index of
    the rows other than the primary one, is in the output. *)
Theorem reshaped_columns_ascend (str_upper : string → string)
    (crows crows' : list constraint_row) (irows irows' : list index_row) :
  crows' ≡ₚ crows → irows' ≡ₚ irows → distinct_positions crows irows →
  ∃ pk uqs ixs,
    get_table_constraints crows' = Some (pk, uqs) ∧
    get_table_indexes str_upper irows' = Some ixs ∧
    position_ordered (pk_pairs crows) pk ∧
    Forall (λ u, position_ordered (uq_pairs (uq_name u) crows) (uq_columns u)) uqs ∧
    (∀ r, r ∈ crows → tc_CONSTRAINT_TYPE r = "UNIQUE" →
          tc_CONSTRAINT_NAME r ∈ uq_name <$> uqs) ∧
    Forall (λ i, position_ordered (ix_pairs (ix_name i) irows) (ix_columns i)) ixs ∧
    (∀ r, r ∈ irows → str_upper (st_INDEX_NAME r) ≠ "PRIMARY" →
          st_INDEX_NAME r ∈ ix_name <$> ixs).
Proof.
  intros Hc Hi (Hpk & Huq & Hix).
  destruct (constraints_by_position crows crows' Hc Hpk Huq)
    as (pk & uqs & Hg & -> & Huqs).
  destruct (indexes_by_position str_upper irows irows' Hi Hix) as (ixs & Hgi & Hixs).
  exists (by_position (pk_pairs crows)), uqs, ixs. split_and!; [done..| | | | |].
  - by apply by_position_ordered.
  - apply Forall_forall. intros u Hu. rewrite (Huqs u Hu).
    apply by_position_ordered. unfold uq_pairs.
    rewrite <-list_fmap_compose, <-list_filter_filter.
    by apply (NoDup_positions_of tc_CONSTRAINT_NAME kcu_ORDINAL_POSITION).
  - intros r Hr Hty. apply (constraints_unique_names _ _ _ _ Hg).
    apply list_elem_of_fmap_2, list_elem_of_filter. split; [done|]. by rewrite Hc.
  - apply Forall_forall. intros i Hi'. rewrite (Hixs i Hi').
    apply by_position_ordered. unfold ix_pairs. rewrite <-list_fmap_compose.
    by apply (NoDup_positions_of st_INDEX_NAME st_SEQ_IN_INDEX).
  - intros r Hr Hup.
    apply (get_table_indexes_covers str_upper irows' ixs r Hgi); [|done].
    by rewrite Hi.
Qed.

Lemma reshaped_columns_ascend_witness :
  ∃ pk uqs ixs,
    get_table_constraints sample_constraints_shuffled = Some (pk, uqs) ∧
    get_table_indexes Ascii7.upper sample_indexes_shuffled = Some ixs ∧
    position_ordered (pk_pairs sample_constraints) pk ∧
    Forall (λ u, position_ordered (uq_pairs (uq_name u) sample_constraints)
                   (uq_columns u)) uqs ∧
    (∀ r, r ∈ sample_constraints → tc_CONSTRAINT_TYPE r = "UNIQUE" →
          tc_CONSTRAINT_NAME r ∈ uq_name <$> uqs) ∧
    Forall (λ i, position_ordered (ix_pairs (ix_name i) sample_indexes)
                   (ix_columns i)) ixs ∧
    (∀ r, r ∈ sample_indexes → Ascii7.upper (st_INDEX_NAME r) ≠ "PRIMARY" →
          st_INDEX_NAME r ∈ ix_name <$> ixs).
Proof.
  apply (reshaped_columns_ascend Ascii7.upper sample_constraints
           sample_constraints_shuffled sample_indexes sample_indexes_shuffled).
  - apply (bool_decide_unpack _). vm_compute. exact I.
  - apply (bool_decide_unpack _). vm_compute. exact I.
  - apply (bool_decide_unpack _). vm_compute. exact I.
Defined.

(** C4. The list of secondary indexes has no entry whose upper-cased name
    is [PRIMARY]; every index name of the rows that is not [PRIMARY] once
    upper-cased has an entry, and every entry carries a name of the rows. *)
Theorem secondary_indexes_skip_primary (str_upper : string → string)
    (rows : list index_row) :
  ∃ ixs, get_table_indexes str_upper rows = Some ixs ∧
    Forall (λ i, str_upper (ix_name i) ≠ "PRIMARY" ∧
                 ix_name i ∈ st_INDEX_NAME <$> rows) ixs ∧
    Forall (λ r, str_upper (st_INDEX_NAME r) ≠ "PRIMARY" →
                 st_INDEX_NAME r ∈ ix_name <$> ixs) rows.
Proof.
  destruct (get_table_indexes_total str_upper rows) as [ixs Hixs].
  exists ixs. split_and!; [done| |]; apply Forall_forall.
  - intros i Hi.
    destruct (get_table_indexes_elem _ _ _ _ Hixs Hi) as (Hup & b & Hb & _).
    split; [done|]. rewrite index_buckets_fold in Hb.
    apply (bucket_fold_keys st_INDEX_NAME ix_init ix_add).
    apply list_elem_of_fmap. by exists (ix_name i, b).
  - intros r Hr Hup.
    assert (Hk : st_INDEX_NAME r ∈ Dict.keys (index_buckets rows)).
    { rewrite index_buckets_fold. apply bucket_fold_keys.
      by apply list_elem_of_fmap_2. }
    apply list_elem_of_fmap in Hk as ([n b] & Hn & Hnb). cbn in Hn. subst n.
    assert (Hsel : (st_INDEX_NAME r, b) ∈
              filter (λ item, is_secondary str_upper item) (index_buckets rows)).
    { apply list_elem_of_filter. split; [|done]. unfold is_secondary. cbn.
      by apply Is_true_true, negb_true_iff, bool_decide_eq_false. }
    destruct (mapM_elem_l _ _ _ _ Hixs Hsel) as (i & Hi & Hf).
    apply list_elem_of_fmap. exists i. split; [|done].
    unfold flatten_index in Hf. cbn in Hf.
    destruct (sorted_cols (ib_columns b)); [|done]. by injection Hf as <-.
Qed.

Example secondary_indexes_mixed_case :
  get_table_indexes Ascii7.upper
    [ IndexRow "primary" 0 1 "id"; IndexRow "ix_a" 1 1 "a";
      IndexRow "Primary" 0 1 "id"; IndexRow "PRIMARY" 0 1 "id" ]
  = Some [Index "ix_a" false ["a"]].
Proof. vm_compute. reflexivity. Qed.

(** ** get_table_foreign_keys *)

Lemma fk_step_bucket d r :
  fk_step d r = bucket_step fk_CONSTRAINT_NAME fk_init fk_append d r.
Proof. reflexivity. Qed.

Lemma fk_fold_fields rs b0 :
  let b := foldl (λ b r, fk_append r b) b0 rs in
  fk_name b = fk_name b0 ∧
  fk_columns b = fk_columns b0 ++ (fk_COLUMN_NAME <$> rs) ∧
  fk_ref_columns b = fk_ref_columns b0 ++ (fk_row_ref_column <$> rs).
Proof.
  revert b0. induction rs as [|r rs IH]; intros b0; cbn.
  - by rewrite !app_nil_r.
  - destruct (IH (fk_append r b0)) as (-> & -> & ->). cbn.
    by rewrite <-!app_assoc.
Qed.

(** Each foreign key of the output holds, in arrival order, the rows that
    carry its name. *)
Lemma foreign_key_rows rows fk :
  fk ∈ get_table_foreign_keys rows →
  fk_rows_of (fk_name fk) rows ≠ [] ∧
  fk_columns fk = fk_COLUMN_NAME <$> fk_rows_of (fk_name fk) rows ∧
  fk_ref_columns fk = fk_row_ref_column <$> fk_rows_of (fk_name fk) rows.
Proof.
  unfold get_table_foreign_keys, Dict.values.
  intros ([n b] & -> & Hnb)%list_elem_of_fmap. cbn.
  change (foldl fk_step [] rows)
    with (foldl (bucket_step fk_CONSTRAINT_NAME fk_init fk_append) [] rows) in Hnb.
  apply bucket_fold_elem in Hnb. unfold bucket_of in Hnb.
  destruct (filter _ rows) as [|r0 rs] eqn:Hf; [done|]. injection Hnb as <-.
  assert (Hr0 : fk_CONSTRAINT_NAME r0 = n).
  { assert (Hin : r0 ∈ filter (λ r, fk_CONSTRAINT_NAME r = n) rows)
      by (rewrite Hf; apply elem_of_cons; by left).
    by apply list_elem_of_filter in Hin as [? _]. }
  destruct (fk_fold_fields rs (fk_append r0 (fk_init r0)))
    as (Hname & Hcols & Hrefs).
  cbn zeta in Hname, Hcols, Hrefs. rewrite Hname, Hcols, Hrefs.
  cbn [fk_append fk_init fk_name fk_columns fk_ref_columns app].
  unfold fk_rows_of. by rewrite Hr0, Hf.
Qed.

Lemma foreign_key_names rows n :
  n ∈ fk_name <$> get_table_foreign_keys rows ↔ n ∈ fk_CONSTRAINT_NAME <$> rows.
Proof.
  rewrite <-(bucket_fold_keys fk_CONSTRAINT_NAME fk_init fk_append).
  unfold get_table_foreign_keys, Dict.values, Dict.keys.
  change (foldl fk_step [] rows)
    with (foldl (bucket_step fk_CONSTRAINT_NAME fk_init fk_append) [] rows).
  assert (Hname : ∀ k b,
    (k, b) ∈ foldl (bucket_step fk_CONSTRAINT_NAME fk_init fk_append) [] rows →
    fk_name b = k).
  { intros k b Hkb. apply bucket_fold_elem in Hkb. unfold bucket_of in Hkb.
    destruct (filter _ rows) as [|r0 rs] eqn:Hf; [done|]. injection Hkb as <-.
    destruct (fk_fold_fields rs (fk_append r0 (fk_init r0))) as (-> & _). cbn.
    assert (Hin : r0 ∈ filter (λ r, fk_CONSTRAINT_NAME r = k) rows)
      by (rewrite Hf; apply elem_of_cons; by left).
    by apply list_elem_of_filter in Hin as [? _]. }
  rewrite <-list_fmap_compose, !list_elem_of_fmap. split.
  - intros ([k b] & -> & Hkb). exists (k, b). split; [|done]. cbn. by apply Hname.
  - intros ([k b] & -> & Hkb). exists (k, b). split; [|done]. cbn.
    symmetry. by apply Hname.
Qed.

Example get_table_foreign_keys_sample :
  get_table_foreign_keys sample_fk_rows =
  [ ForeignKey "fk_orders_customer" ["customer_id"; "region"] "customers"
      ["id"; "region"] "CASCADE" "RESTRICT" ].
Proof. reflexivity. Qed.

(** C2, as stated, fails: the column list of a foreign key is not
    independent of the order in which its rows arrive.  The two rows of
    [fk_orders_customer] in the other order give the columns in the other
    order. *)
Lemma foreign_key_order_not_arrival_independent :
  ¬ (∀ rows rows' : list fk_row, rows' ≡ₚ rows →
       fk_columns <$> get_table_foreign_keys rows' =
       fk_columns <$> get_table_foreign_keys rows).
Proof.
  intros H. specialize (H sample_fk_rows sample_fk_rows_swapped).
  assert (Hp : sample_fk_rows_swapped ≡ₚ sample_fk_rows) by apply Permutation_swap.
  specialize (H Hp). vm_compute in H. discriminate H.
Qed.

(** C2, amended. The column list of every foreign key holds the column
    names of the rows of that key in the order in which those rows arrive
    (the query selects no position and nothing is sorted), and every
    constraint name of the rows has its foreign key. *)
Theorem foreign_key_columns_in_arrival_order (rows : list fk_row) :
  Forall (λ fk, fk_columns fk = fk_COLUMN_NAME <$> fk_rows_of (fk_name fk) rows)
    (get_table_foreign_keys rows) ∧
  Forall (λ r, fk_CONSTRAINT_NAME r ∈ fk_name <$> get_table_foreign_keys rows)
    rows.
Proof.
  split; apply Forall_forall.
  - intros fk Hfk. by destruct (foreign_key_rows rows fk Hfk) as (_ & ? & _).
  - intros r Hr. apply foreign_key_names. by apply list_elem_of_fmap_2.
Qed.

(** C3. In every foreign key of the output, [columns] and [ref_columns]
    have the same length, and at each index they hold the local and the
    referenced column of one and the same input row: the row at that index
    among the rows of the key. *)
Theorem foreign_key_lists_aligned (rows : list fk_row) :
  Forall (λ fk,
            length (fk_columns fk) = length (fk_ref_columns fk) ∧
            ∀ i : nat,
              fk_columns fk !! i =
                fk_COLUMN_NAME <$> fk_rows_of (fk_name fk) rows !! i ∧
              fk_ref_columns fk !! i =
                fk_row_ref_column <$> fk_rows_of (fk_name fk) rows !! i)
    (get_table_foreign_keys rows).
Proof.
  apply Forall_forall. intros fk Hfk.
  destruct (foreign_key_rows rows fk Hfk) as (_ & -> & ->).
  split; [by rewrite !length_fmap|].
  intros i. by rewrite !list_lookup_fmap.
Qed.

(** ** get_config_value *)

(** C7. [get_config_value] returns the first of the command-line
    argument, the environment value, the config-file entry and the
    default that is not [None], in that order. *)
Theorem get_config_value_first_present (environ : gmap string string)
    (cli_arg : value) (env_var : string) (config_file : config_file)
    (section key : string) (default : value) :
  get_config_value environ cli_arg env_var config_file section key default =
  first_present [ cli_arg;
                  opt_str (environ !! env_var);
                  opt_str (config_entry config_file section key);
                  default ].
Proof.
  unfold get_config_value, first_present.
  destruct cli_arg; [|done..].
  destruct (environ !! env_var); [done|].
  destruct (config_entry config_file section key); [done|].
  by destruct default.
Qed.

(** The four cases of the precedence, one by one. *)
Lemma get_config_value_cases (environ : gmap string string)
    (cli_arg : value) (env_var : string) (config_file : config_file)
    (section key : string) (default : value) :
  let result :=
    get_config_value environ cli_arg env_var config_file section key default in
  (cli_arg ≠ VNone → result = cli_arg) ∧
  (cli_arg = VNone → ∀ e, environ !! env_var = Some e → result = VStr e) ∧
  (cli_arg = VNone → environ !! env_var = None →
     ∀ f, config_entry config_file section key = Some f → result = VStr f) ∧
  (cli_arg = VNone → environ !! env_var = None →
     config_entry config_file section key = None → result = default).
Proof.
  cbn. unfold get_config_value. split_and!.
  - by destruct cli_arg.
  - by intros -> e ->.
  - by intros -> -> f ->.
  - by intros -> -> ->.
Qed.

(** C10. Present means not [None]: the empty string given on the command
    line, or set in the environment, is returned, whatever the config
    file and the default hold; so an empty [DB_PASS] shadows a password
    of the config file. *)
Theorem empty_string_is_present (environ : gmap string string)
    (env_var : string) (config_file : config_file)
    (section key : string) (default : value) (password : string) :
  get_config_value environ (VStr "") env_var config_file section key default
    = VStr "" ∧
  get_config_value (<[env_var := ""]> environ) VNone env_var config_file
    section key default = VStr "" ∧
  get_config_value (<["DB_PASS" := ""]> environ) VNone "DB_PASS"
    (Parser {["database" := {["password" := password]}]})
    "database" "password" (VStr "") = VStr "".
Proof.
  unfold get_config_value. by rewrite !lookup_insert_eq.
Qed.

(** ** get_table_info and get_table_ddl *)

(** C9. When the catalog returns no row, [get_table_info] returns the
    record whose three fields are null and [get_table_ddl] returns the
    empty string. *)
Theorem no_row_fallbacks :
  get_table_info [] =
    {| row_count_est := None; engine := None; collation := None |} ∧
  get_table_ddl [] = "".
Proof. split; reflexivity. Qed.

(** ** The run *)

Lemma bind_value {A B} (t : list event) (a : A) (k : A → M B) :
  ((t, inr a) : M A) ≫= k = let '(t', r) := k a in (t ++ t', r).
Proof. reflexivity. Qed.

Lemma bind_stop {A B} (t : list event) (o : outcome) (k : A → M B) :
  ((t, inl o) : M A) ≫= k = (t, inl o).
Proof. reflexivity. Qed.

Lemma bind_ret {A B} (a : A) (k : A → M B) : mret a ≫= k = k a.
Proof. unfold mret, M_ret. rewrite bind_value. by destruct (k a). Qed.

Lemma load_config_file_eq ini :
  load_config_file ini = (config_trace ini, inr (config_of ini)).
Proof. by destruct ini. Qed.

(** A setting that comes from strings is a string. *)
Lemma setting_is_str w o env_var section key d :
  ∃ s, setting w (opt_str o) env_var section key (VStr d) = VStr s.
Proof.
  unfold setting, get_config_value. destruct o; cbn; [by eexists|].
  destruct (w_environ w !! env_var); [by eexists|].
  destruct (config_entry _ _ _); by eexists.
Qed.

Lemma as_str_setting w o env_var section key d :
  as_str (setting w (opt_str o) env_var section key (VStr d)) =
  mret (str_of (setting w (opt_str o) env_var section key (VStr d))).
Proof. by destruct (setting_is_str w o env_var section key d) as [s ->]. Qed.

Section run.
Context {pattern : Type}.
Variable re_compile : string → option pattern.
Variable re_match : pattern → string → bool.
Variable py_int : string → option Z.
Variable str_upper : string → string.

Abbreviation main_body := (main_body re_compile re_match py_int str_upper).
Abbreviation main := (main re_compile re_match py_int str_upper).
Abbreviation resolved_run := (resolved_run re_compile re_match py_int str_upper).

Lemma main_body_stages w :
  main_body w =
  if a_help (w_args w) then (_ ← print MsgHelp; sys_exit 0)
  else let '(t, r) := resolved_run w in (config_trace (w_config_ini w) ++ t, r).
Proof.
  unfold main_body. cbv zeta. destruct (a_help (w_args w)); [done|].
  rewrite load_config_file_eq, bind_value. unfold resolved_run.
  fold (setting w (opt_int (a_port (w_args w))) "DB_PORT" "database" "port" (VInt 3306)).
  fold (db_port_of w).
  destruct (int_ py_int (db_port_of w)) as [t [o|db_port]].
  - by rewrite !bind_stop.
  - rewrite !bind_value.
    repeat match goal with
    | |- context [get_config_value (w_environ w) ?c ?e
                    (config_of (w_config_ini w)) ?s ?k ?d] =>
        change (get_config_value (w_environ w) c e
                  (config_of (w_config_ini w)) s k d)
          with (setting w c e s k d)
    end.
    rewrite !as_str_setting, bind_ret. cbv beta.
    fold (db_name_of w) (db_user_of w).
    destruct (negb (truthy (db_name_of w)) || negb (truthy (db_user_of w)));
      [done|].
    unfold validated_run, effective_filter, table_filter_of.
    destruct (re_compile _); [|done].
    rewrite bind_ret. unfold emit at 1 3.
    rewrite !bind_value. unfold output_dir_of.
    destruct (negb (w_mkdir_ok w _)); [done|].
    rewrite !bind_ret. reflexivity.
Qed.

Lemma int_cases v :
  (∃ n, int_ py_int v = mret n) ∨ (∃ e, int_ py_int v = raise e).
Proof.
  destruct v as [|s|n]; cbn.
  - right. by eexists.
  - destruct (py_int s); [left|right]; by eexists.
  - left. by eexists.
Qed.

(** C6. When the database name or the user is missing after
    resolution, the run does nothing but print: no directory or file is
    written, nothing is connected to or queried.  Unless [--help] was
    given the exit status is 1, and when the resolution itself went
    through (the port converted) the run is exactly the three lines of
    the usage message followed by [sys.exit(1)]. *)
Theorem missing_settings_abort (w : world) :
  missing_required w →
  Forall is_print (main w).1 ∧
  (a_help (w_args w) = false →
     exit_status (main w).2 = 1 ∧
     ∀ db_port, int_ py_int (db_port_of w) = mret db_port →
       main w = (config_trace (w_config_ini w) ++
                   [Print MsgRequired; Print MsgUseArguments; Print MsgRunHelp],
                 Exit 1)).
Proof.
  intros Hmiss.
  assert (Hcond : negb (truthy (db_name_of w)) || negb (truthy (db_user_of w))
                  = true).
  { destruct Hmiss as [-> | ->]; [done|]. apply orb_true_r. }
  assert (Hcfg : Forall is_print (config_trace (w_config_ini w))).
  { destruct (w_config_ini w); repeat constructor. }
  unfold main. rewrite main_body_stages. unfold resolved_run.
  destruct (a_help (w_args w)).
  { split; [repeat constructor|done]. }
  destruct (int_cases (db_port_of w)) as [[n Hn]|[e He]].
  - rewrite Hn, bind_ret, Hcond. cbn. split.
    + apply Forall_app. split; [done|]. repeat constructor.
    + intros _. split; [done|]. by intros _ _.
  - rewrite He. cbn. rewrite app_nil_r. split; [done|].
    intros _. split; [done|]. intros n [=].
Qed.

Lemma export_table_ok conn db_name table :
  ∃ rec,
    export_table str_upper conn db_name table =
    ([ Execute (QColumns db_name table);
       Execute (QTableConstraints db_name table);
       Execute (QStatistics db_name table);
       Execute (QForeignKeys db_name table);
       Execute (QTables db_name table);
       Execute (QShowCreateTable table) ], inr rec) ∧
    tr_name rec = table.
Proof.
  unfold export_table.
  destruct (get_table_constraints_total
              (rows_TABLE_CONSTRAINTS conn db_name table)) as [cs ->].
  destruct (get_table_indexes_total str_upper
              (rows_STATISTICS conn db_name table)) as [ixs ->].
  by eexists.
Qed.

(** The loop keeps exactly the tables that [pat] matches, in catalog
    order. *)
Lemma process_tables_ok conn db_name pat total tables current tables_out :
  ∃ t recs,
    process_tables re_match str_upper conn db_name pat total tables
      current tables_out = (t, inr (tables_out ++ recs)) ∧
    tr_name <$> recs = filter (λ table, re_match pat table) tables ∧
    Forall (λ rec, (export_table str_upper conn db_name (tr_name rec)).2
                   = inr rec) recs.
Proof.
  revert current tables_out.
  induction tables as [|table tables IH]; intros current tables_out.
  - exists [], []. by rewrite app_nil_r.
  - cbn [process_tables]. rewrite filter_cons.
    destruct (re_match pat table) eqn:Hm; cbn [negb].
    + destruct (export_table_ok conn db_name table) as (rec & Hrec & Hname).
      destruct (IH (S current) (tables_out ++ [rec])) as (t & recs & Ht & Hn & Hall).
      unfold print, emit. rewrite bind_value, Hrec, bind_value, Ht.
      eexists _, (rec :: recs). split_and!.
      * by rewrite <-app_assoc.
      * rewrite decide_True by done. csimpl. by rewrite Hname, Hn.
      * constructor; [|done]. by rewrite Hname, Hrec.
    + destruct (IH current tables_out) as (t & recs & Ht & Hn & Hall).
      exists t, recs. rewrite decide_False by (by intros []). done.
Qed.

Lemma export_schema_ok w conn db_name table_filter output_file schema_version pat :
  re_compile table_filter = Some pat →
  ∃ t recs,
    export_schema re_compile re_match str_upper w conn db_name table_filter
      output_file schema_version =
    (Execute QShowFullTables ::
     Print (MsgProcessing (length (rows_BASE_TABLES conn)) table_filter) ::
     t ++
     WriteJson output_file
       {| doc_database := db_name; doc_generated_at := w_now w;
          doc_schema_version := schema_version; doc_tables := recs |} ::
     (if w_write_ok w output_file
      then [Print (MsgExportComplete output_file);
            Print (MsgExported (length recs))]
      else [Print (MsgWriteFailed output_file)]),
     if w_write_ok w output_file then inr () else inl (Exit 1)) ∧
    tr_name <$> recs =
      filter (λ table, re_match pat table) (rows_BASE_TABLES conn) ∧
    Forall (λ rec, (export_table str_upper conn db_name (tr_name rec)).2
                   = inr rec) recs.
Proof.
  intros Hpat. unfold export_schema. rewrite Hpat.
  destruct (process_tables_ok conn db_name pat
              (length (rows_BASE_TABLES conn)) (rows_BASE_TABLES conn) O [])
    as (t & recs & Ht & Hn & Hall).
  exists t, recs. split; [|done].
  unfold print, emit. rewrite !bind_value, bind_ret, Ht. cbn [app].
  rewrite bind_value. by destruct (w_write_ok w output_file).
Qed.

(** A run that reaches the export, spelled out. *)
Lemma main_export w db_port pat conn :
  reaches_export re_compile py_int w db_port pat conn →
  ∃ t recs,
    main w =
    (config_trace (w_config_ini w) ++
     Mkdir (str_of (output_dir_of w)) ::
     Connect (str_of (db_host_of w)) db_port (str_of (db_user_of w))
       (str_of (db_pass_of w)) (str_of (db_name_of w)) ::
     Print (MsgConnected (str_of (db_name_of w)) (str_of (db_host_of w))) ::
     Execute QShowFullTables ::
     Print (MsgProcessing (length (rows_BASE_TABLES conn)) (effective_filter w)) ::
     t ++
     WriteJson (output_file_of w)
       {| doc_database := str_of (db_name_of w); doc_generated_at := w_now w;
          doc_schema_version := schema_version_of w; doc_tables := recs |} ::
     (if w_write_ok w (output_file_of w)
      then [Print (MsgExportComplete (output_file_of w));
            Print (MsgExported (length recs))]
      else [Print (MsgWriteFailed (output_file_of w))]) ++
     [CloseConnection],
     if w_write_ok w (output_file_of w) then Exit 0 else Exit 1) ∧
    tr_name <$> recs =
      filter (λ table, re_match pat table) (rows_BASE_TABLES conn) ∧
    Forall (λ rec, (export_table str_upper conn (str_of (db_name_of w))
                      (tr_name rec)).2 = inr rec) recs.
Proof.
  intros (Hhelp & Hport & Hname & Huser & Hpat & Hmkdir & Hconn).
  destruct (export_schema_ok w conn (str_of (db_name_of w)) (effective_filter w)
              (output_file_of w) (schema_version_of w) pat Hpat)
    as (t & recs & Hexp & Hn & Hall).
  exists t, recs. split; [|done].
  unfold main. rewrite main_body_stages, Hhelp. unfold resolved_run.
  rewrite Hport, bind_ret, Hname, Huser. cbn [negb orb].
  unfold validated_run. rewrite Hpat. unfold emit at 1. rewrite bind_value.
  rewrite Hmkdir. cbn [negb]. unfold connected_run. cbv zeta.
  unfold emit at 1. rewrite bind_value, Hconn.
  unfold print, emit. rewrite bind_value, Hexp. unfold finally.
  destruct (w_write_ok w (output_file_of w)); cbn; by rewrite <-app_assoc.
Qed.

Lemma filter_all {A} (P : A → Prop) `{∀ x, Decision (P x)} (l : list A) :
  (∀ x, x ∈ l → P x) → filter P l = l.
Proof.
  induction l as [|x l IH]; intros Hl; [done|].
  rewrite filter_cons, decide_True by (apply Hl, elem_of_cons; by left).
  f_equal. apply IH. intros y Hy. apply Hl, elem_of_cons; by right.
Qed.

Hypothesis re_dot_star :
  ∀ pat, re_compile ".*" = Some pat → ∀ s, re_match pat s = true.

(** C5. In a run that reaches the export, the document handed to the
    writer lists exactly the base tables whose name [pat.match] accepts,
    in catalog order; when no table is accepted the document is written
    all the same, with an empty table list; and with the filter [.*]
    every base table is listed. *)
Theorem table_filter_is_start_match (w : world) (db_port : Z) (pat : pattern)
    (conn : connection) :
  reaches_export re_compile py_int w db_port pat conn →
  ∃ tables_out,
    WriteJson (output_file_of w)
      {| doc_database := str_of (db_name_of w); doc_generated_at := w_now w;
         doc_schema_version := schema_version_of w;
         doc_tables := tables_out |} ∈ (main w).1 ∧
    tr_name <$> tables_out =
      filter (λ table, re_match pat table) (rows_BASE_TABLES conn) ∧
    (∀ table, table ∈ tr_name <$> tables_out ↔
              table ∈ rows_BASE_TABLES conn ∧ re_match pat table = true) ∧
    ((∀ table, table ∈ rows_BASE_TABLES conn → re_match pat table = false) →
     tables_out = []) ∧
    (effective_filter w = ".*" →
     tr_name <$> tables_out = rows_BASE_TABLES conn) ∧
    (w_write_ok w (output_file_of w) = true → (main w).2 = Exit 0).
Proof.
  intros Hreach. destruct (main_export w db_port pat conn Hreach)
    as (t & recs & Hmain & Hn & _).
  exists recs. rewrite Hmain. cbn [fst snd]. split_and!.
  - apply elem_of_app. right. do 5 (apply elem_of_cons; right).
    apply elem_of_app. right. apply elem_of_cons. by left.
  - done.
  - intros table. rewrite Hn, list_elem_of_filter, Is_true_true. tauto.
  - intros Hnone. apply fmap_nil_inv with (f := tr_name). rewrite Hn.
    destruct (filter _ _) as [|table l] eqn:Hf; [done|].
    assert (Hin : table ∈ filter (λ table, re_match pat table)
                             (rows_BASE_TABLES conn))
      by (rewrite Hf; apply elem_of_cons; by left).
    apply list_elem_of_filter in Hin as [Hm Hin].
    rewrite (Hnone _ Hin) in Hm. done.
  - intros Hf. rewrite Hn. apply filter_all. intros table _.
    destruct Hreach as (_ & _ & _ & _ & Hpat & _). rewrite Hf in Hpat.
    by rewrite (re_dot_star pat Hpat).
  - by intros ->.
Qed.
End run.

Lemma missing_settings_abort_witness :
  Forall is_print (run (shop_world no_args)).1 ∧
  exit_status (run (shop_world no_args)).2 = 1 ∧
  run (shop_world no_args) =
    ([Print MsgRequired; Print MsgUseArguments; Print MsgRunHelp], Exit 1).
Proof.
  assert (Hmiss : missing_required (shop_world no_args))
    by (left; vm_compute; reflexivity).
  destruct (missing_settings_abort Re.re_compile Re.re_match Ascii7.int
              Ascii7.upper (shop_world no_args) Hmiss) as [Hprints Hrun].
  destruct (Hrun eq_refl) as [Hstatus Husage].
  split_and!; [exact Hprints|exact Hstatus|exact (Husage 3306 eq_refl)].
Defined.

Lemma re_dot_star_fragment pat :
  Re.re_compile ".*" = Some pat → ∀ s, Re.re_match pat s = true.
Proof. intros [= <-] s. by destruct s. Qed.

Lemma table_filter_is_start_match_witness :
  let w := shop_world (shop_args (Some ".*")) in
  ∃ tables_out,
    WriteJson (output_file_of w)
      {| doc_database := str_of (db_name_of w); doc_generated_at := w_now w;
         doc_schema_version := schema_version_of w;
         doc_tables := tables_out |} ∈ (run w).1 ∧
    tr_name <$> tables_out =
      filter (λ table, Re.re_match (Re.Cat (Re.Star Re.Dot) Re.Eps) table)
        (rows_BASE_TABLES shop) ∧
    (∀ table, table ∈ tr_name <$> tables_out ↔
              table ∈ rows_BASE_TABLES shop ∧
              Re.re_match (Re.Cat (Re.Star Re.Dot) Re.Eps) table = true) ∧
    ((∀ table, table ∈ rows_BASE_TABLES shop →
               Re.re_match (Re.Cat (Re.Star Re.Dot) Re.Eps) table = false) →
     tables_out = []) ∧
    (effective_filter w = ".*" →
     tr_name <$> tables_out = rows_BASE_TABLES shop) ∧
    (w_write_ok w (output_file_of w) = true → (run w).2 = Exit 0).
Proof.
  apply (table_filter_is_start_match Re.re_compile Re.re_match Ascii7.int
           Ascii7.upper re_dot_star_fragment
           (shop_world (shop_args (Some ".*"))) 3306
           (Re.Cat (Re.Star Re.Dot) Re.Eps) shop).
  repeat split; vm_compute; reflexivity.
Defined.

(** A filter that matches inside a name but not at its start selects
    nothing: the name [user_roles] contains [roles], and [search] would
    find it. *)
Example filter_is_not_a_search :
  written_tables (run (shop_world (shop_args (Some "roles")))) = [[]] ∧
  Re.re_search (Re.Cat (Re.Chr "r") (Re.Cat (Re.Chr "o") (Re.Cat (Re.Chr "l")
     (Re.Cat (Re.Chr "e") (Re.Cat (Re.Chr "s") Re.Eps))))) "user_roles" = true.
Proof. split; vm_compute; reflexivity. Qed.

Example run_user_prefix :
  written_tables (run (shop_world (shop_args (Some "user")))) =
  [["users"; "user_roles"]].
Proof. vm_compute. reflexivity. Qed.

(** ** The delimiters of the filter *)

Lemma endswith_slash_snoc c p : endswith_slash (String c (p +:+ "/")) = true.
Proof.
  revert c. induction p as [|c' p IH]; intros c; [done|].
  change (String c' p +:+ "/") with (String c' (p +:+ "/")).
  cbn [endswith_slash]. apply IH.
Qed.

Lemma drop_last_snoc p : drop_last (p +:+ "/") = p.
Proof.
  induction p as [|c p IH]; [done|].
  change (String c p +:+ "/") with (String c (p +:+ "/")).
  cbn [drop_last]. rewrite IH. by destruct p.
Qed.

Lemma strip_delimiters_wrapped p : strip_delimiters ("/" +:+ p +:+ "/") = p.
Proof.
  change ("/" +:+ p +:+ "/") with (String "/" (p +:+ "/")).
  unfold strip_delimiters. rewrite endswith_slash_snoc. cbn.
  apply drop_last_snoc.
Qed.

Section delimiters.
Context {pattern : Type}.
Variable re_compile : string → option pattern.
Variable re_match : pattern → string → bool.
Variable py_int : string → option Z.
Variable str_upper : string → string.

(** After the resolution only the stripped filter is used. *)
Lemma resolved_run_with_filter w x y :
  strip_delimiters x = strip_delimiters y →
  resolved_run re_compile re_match py_int str_upper (with_filter (Some x) w) =
  resolved_run re_compile re_match py_int str_upper (with_filter (Some y) w).
Proof.
  intros Hxy.
  unfold resolved_run, validated_run, connected_run, export_schema,
    effective_filter, output_file_of, schema_version_of, db_port_of,
    db_name_of, db_user_of, db_host_of, db_pass_of, output_dir_of,
    table_filter_of, setting.
  cbn [with_filter w_args w_environ w_config_ini w_today w_now w_mkdir_ok
       w_connect w_write_ok a_help a_host a_database a_user a_password
       a_port a_output a_filter].
  change (get_config_value (w_environ w) (opt_str (Some x)) "TABLE_NAME_REGEXP"
            (config_of (w_config_ini w)) "export" "table_filter" (VStr ".*"))
    with (VStr x).
  change (get_config_value (w_environ w) (opt_str (Some y)) "TABLE_NAME_REGEXP"
            (config_of (w_config_ini w)) "export" "table_filter" (VStr ".*"))
    with (VStr y).
  cbn [str_of]. by rewrite Hxy.
Qed.

(** C8, amended. For a pattern [p] that is not itself wrapped in
    slashes, the filter [/p/] is stripped to [p], [p] is left as it is,
    and the run with [--filter /p/] is the run with [--filter p]:
    same output, same document, same exit status. *)
Theorem delimited_filter_equivalent (w : world) (p : string) :
  startswith_slash p && endswith_slash p = false →
  strip_delimiters ("/" +:+ p +:+ "/") = p ∧
  strip_delimiters p = p ∧
  main re_compile re_match py_int str_upper
    (with_filter (Some ("/" +:+ p +:+ "/")) w) =
  main re_compile re_match py_int str_upper (with_filter (Some p) w).
Proof.
  intros Hp.
  assert (Hstrip : strip_delimiters p = p) by (unfold strip_delimiters; by rewrite Hp).
  split_and!; [apply strip_delimiters_wrapped|done|].
  unfold main. rewrite !main_body_stages.
  cbn [with_filter w_args w_config_ini a_help].
  rewrite (resolved_run_with_filter w ("/" +:+ p +:+ "/") p); [done|].
  by rewrite strip_delimiters_wrapped, Hstrip.
Qed.
End delimiters.

Lemma delimited_filter_equivalent_witness :
  strip_delimiters ("/" +:+ "user_.*" +:+ "/") = "user_.*" ∧
  strip_delimiters "user_.*" = "user_.*" ∧
  run (with_filter (Some ("/" +:+ "user_.*" +:+ "/")) (shop_world (shop_args None))) =
  run (with_filter (Some "user_.*") (shop_world (shop_args None))).
Proof.
  apply (delimited_filter_equivalent Re.re_compile Re.re_match Ascii7.int
           Ascii7.upper (shop_world (shop_args None)) "user_.*").
  vm_compute. reflexivity.
Defined.

(** C8, as stated, fails for a pattern that is itself wrapped in slashes,
    the shortest being [/]: the filter [///] is stripped to [/], which no
    table name of [shop] starts with, while the filter [/] is stripped to
    the empty pattern, which matches every name. *)
Lemma slash_pattern_not_equivalent :
  ¬ (∀ p : string,
       written_tables (run (shop_world (shop_args (Some ("/" +:+ p +:+ "/"))))) =
       written_tables (run (shop_world (shop_args (Some p))))).
Proof.
  intros H. specialize (H "/"). vm_compute in H. discriminate H.
Qed.

Example slash_pattern_runs :
  written_tables (run (shop_world (shop_args (Some "///")))) = [[]] ∧
  written_tables (run (shop_world (shop_args (Some "/")))) =
    [["users"; "user_roles"; "orders"]].
Proof. split; vm_compute; reflexivity. Qed.

(** An empty [DB_PASS] in the environment wins over the password of the
    config file: the connection is opened with the empty password. *)
Example empty_db_pass_connects_without_password :
  let w := {| w_args := shop_args None;
              w_environ := {["DB_PASS" := ""]};
              w_config_ini :=
                IniParsed {["database" := {["password" := "secret"]}]};
              w_today := "2024-01-01";
              w_now := "2024-01-01T00:00:00";
              w_mkdir_ok := λ _, true;
              w_connect := λ _ _ _ _ _, Some shop;
              w_write_ok := λ _, true |} in
  Connect "localhost" 3306 "root" "" "shop" ∈ (run w).1.
Proof. vm_compute. apply elem_of_cons. right. apply elem_of_cons. by left. Qed.

(** With [--help] nothing is resolved: the help text, exit status 0. *)
Example help_exits_zero :
  run (shop_world {| a_help := true; a_host := None; a_database := None;
                     a_user := None; a_password := None; a_port := None;
                     a_output := None; a_filter := None |}) =
  ([Print MsgHelp], Exit 0).
Proof. reflexivity. Qed.

(** A port that [int] rejects ends the resolution with a [ValueError],
    before the required settings are looked at. *)
Example bad_port_raises :
  run {| w_args := no_args;
         w_environ := {["DB_PORT" := "mysql"]};
         w_config_ini := IniMissing;
         w_today := "2024-01-01";
         w_now := "2024-01-01T00:00:00";
         w_mkdir_ok := λ _, true;
         w_connect := λ _ _ _ _ _, Some shop;
         w_write_ok := λ _, true |} =
  ([], Uncaught "ValueError").
Proof. vm_compute. reflexivity. Qed.

(** The whole run on [shop] with the filter [users]. *)
Example run_users :
  run (shop_world (shop_args (Some "users"))) =
  ([ Mkdir "./export";
     Connect "localhost" 3306 "root" "" "shop";
     Print (MsgConnected "shop" "localhost");
     Execute QShowFullTables;
     Print (MsgProcessing 3 "users");
     Print (MsgProcessingTable 1 3 "users");
     Execute (QColumns "shop" "users");
     Execute (QTableConstraints "shop" "users");
     Execute (QStatistics "shop" "users");
     Execute (QForeignKeys "shop" "users");
     Execute (QTables "shop" "users");
     Execute (QShowCreateTable "users");
     WriteJson "./export/schema_shop.json"
       {| doc_database := "shop";
          doc_generated_at := "2024-01-01T00:00:00";
          doc_schema_version := "2024-01-01";
          doc_tables :=
            [ {| tr_name := "users";
                 tr_columns :=
                   [ Column "id" "int" false None "auto_increment" "" 1;
                     Column "email" "varchar(255)" true None "" "" 2 ];
                 tr_primary_key := ["id"];
                 tr_unique := [UniqueConstraint "uq_email" ["email"]];
                 tr_indexes := [Index "uq_email" true ["email"]];
                 tr_foreign_keys := [];
                 tr_table_info :=
                   TableInfo (Some 42) (Some "InnoDB") (Some "utf8mb4_general_ci");
                 tr_ddl := "CREATE TABLE ..." |} ] |};
     Print (MsgExportComplete "./export/schema_shop.json");
     Print (MsgExported 1);
     CloseConnection ], Exit 0).
Proof. vm_compute. reflexivity. Qed.

(** * Further properties of the code *)

(** ** The order of the buckets *)

Lemma first_occurrences_snoc l x :
  first_occurrences (l ++ [x]) =
  if decide (x ∈ l) then first_occurrences l else first_occurrences l ++ [x].
Proof.
  induction l as [|y l IH]; [done|].
  cbn [app first_occurrences]. rewrite IH.
  destruct (decide (x ∈ l)) as [Hin|Hin].
  - rewrite decide_True by (apply elem_of_cons; by right). done.
  - rewrite filter_app, filter_cons, filter_nil.
    destruct (decide (x ∈ y :: l)) as [Hy|Hy]; destruct (decide (x ≠ y)) as [Hne|He].
    + apply elem_of_cons in Hy as [?|?]; done.
    + by rewrite app_nil_r.
    + done.
    + exfalso. apply Hy, elem_of_cons. left. by destruct (decide (x = y)).
Qed.

Lemma first_occurrences_elem l x : x ∈ first_occurrences l ↔ x ∈ l.
Proof.
  induction l as [|y l IH]; [done|]. cbn [first_occurrences].
  rewrite !elem_of_cons, list_elem_of_filter, IH.
  destruct (decide (x = y)); tauto.
Qed.

Lemma first_occurrences_NoDup l : NoDup (first_occurrences l).
Proof.
  induction l as [|y l IH]; [constructor|]. cbn [first_occurrences].
  apply NoDup_cons. split.
  - rewrite list_elem_of_filter. by intros [? _].
  - by apply NoDup_filter.
Qed.

Section bucket_order.
Context {R B : Type} (key : R → string) (init : R → B) (add : R → B → B).

(** The loop lists the names in the order of their first row. *)
Lemma bucket_fold_first_occurrences rows :
  Dict.keys (foldl (bucket_step key init add) [] rows) =
  first_occurrences (key <$> rows).
Proof.
  induction rows as [|r rows IH] using rev_ind; [done|].
  rewrite foldl_app, fmap_app. cbn [foldl fmap list_fmap].
  rewrite bucket_step_keys, first_occurrences_snoc, IH.
  destruct (Dict.mem _ _) eqn:Hm.
  - apply dict_mem_true, bucket_fold_keys in Hm. by rewrite decide_True.
  - rewrite decide_False; [done|]. intros Hin.
    apply (bucket_fold_keys key init add) in Hin. apply dict_mem_true in Hin.
    congruence.
Qed.
End bucket_order.

Lemma mapM_fmap_eq {A B C} (f : A → option B) (g : B → C) (h : A → C) l k :
  mapM f l = Some k → (∀ x y, f x = Some y → g y = h x) → g <$> k = h <$> l.
Proof.
  intros Hm%mapM_Some Hgh. induction Hm as [|x y l k Hxy _ IH]; [done|].
  csimpl. by rewrite (Hgh x y Hxy), IH.
Qed.

(** ** More on get_table_constraints *)

Lemma filter_filter_same {A} (P : A → Prop) `{∀ x, Decision (P x)} (l : list A) :
  filter P (filter P l) = filter P l.
Proof.
  apply filter_all. intros x Hx. by apply list_elem_of_filter in Hx as [? _].
Qed.

Lemma filter_filter_none {A} (P Q : A → Prop)
    `{∀ x, Decision (P x)} `{∀ x, Decision (Q x)} (l : list A) :
  (∀ x, P x → ¬ Q x) → filter Q (filter P l) = [].
Proof.
  intros HPQ. induction l as [|x l IH]; [done|].
  rewrite filter_cons. destruct (decide (P x)); [|done].
  rewrite filter_cons, decide_False by auto. done.
Qed.

(** [get_table_constraints] in terms of the two halves of its loop. *)
Lemma get_table_constraints_parts rows pk uqs :
  get_table_constraints rows = Some (pk, uqs) ↔
  sorted_cols
    (foldl pk_assign ∅ (filter (λ r, tc_CONSTRAINT_TYPE r = "PRIMARY KEY") rows))
    = Some pk ∧
  mapM flatten_unique
    (foldl uq_step [] (filter (λ r, tc_CONSTRAINT_TYPE r = "UNIQUE") rows))
    = Some uqs.
Proof.
  unfold get_table_constraints. rewrite constraints_buckets_split.
  destruct (sorted_cols _) as [pk'|]; cbn.
  - destruct (mapM flatten_unique _) as [uqs'|]; cbn.
    + split; [by intros [= <- <-]|by intros [[= <-] [= <-]]].
    + split; [done|by intros [_ ?]].
  - split; [done|by intros [? _]].
Qed.

Lemma sorted_cols_empty : sorted_cols ∅ = Some [].
Proof. reflexivity. Qed.

(** The primary key is computed from the [PRIMARY KEY] rows alone and the
    unique constraints from the [UNIQUE] rows alone; rows of any other
    constraint type have no effect. *)
Theorem constraint_kinds_independent (rows : list constraint_row) :
  ∃ pk uqs,
    get_table_constraints rows = Some (pk, uqs) ∧
    get_table_constraints
      (filter (λ r, tc_CONSTRAINT_TYPE r = "PRIMARY KEY") rows) = Some (pk, []) ∧
    get_table_constraints
      (filter (λ r, tc_CONSTRAINT_TYPE r = "UNIQUE") rows) = Some ([], uqs) ∧
    get_table_constraints
      (filter (λ r, tc_CONSTRAINT_TYPE r ≠ "PRIMARY KEY" ∧
                    tc_CONSTRAINT_TYPE r ≠ "UNIQUE") rows) = Some ([], []).
Proof.
  destruct (get_table_constraints_total rows) as [[pk uqs] Hg].
  exists pk, uqs. split; [done|].
  apply get_table_constraints_parts in Hg as [Hpk Huq].
  split_and!; apply get_table_constraints_parts.
  - rewrite filter_filter_same, filter_filter_none; [done|].
    by intros r ->.
  - rewrite filter_filter_same, filter_filter_none; [done|].
    by intros r ->.
  - rewrite !filter_filter_none; [done|by intros r [_ ?]|by intros r [? _]].
Qed.

(** Without the assumption of distinct positions. *)
Lemma foldl_insert_lookup_last {R} (pos : R → Z) (col : R → string)
    (rows : list R) (k : Z) :
  foldl (λ m r, <[pos r := col r]> m) (∅ : gmap Z string) rows !! k =
  last_col k ((λ r, (pos r, col r)) <$> rows).
Proof.
  unfold last_col. induction rows as [|r rows IH] using rev_ind; [done|].
  rewrite foldl_app, fmap_app, filter_app, fmap_app. cbn [foldl].
  rewrite lookup_insert. csimpl. rewrite filter_cons, filter_nil. cbn [fst].
  destruct (decide (pos r = k)) as [Hk|Hk].
  - csimpl. by rewrite last_snoc.
  - csimpl. by rewrite app_nil_r.
Qed.

Lemma last_col_is_Some k pairs : is_Some (last_col k pairs) ↔ k ∈ pairs.*1.
Proof.
  unfold last_col. rewrite last_is_Some. split.
  - intros Hne. destruct (filter _ pairs) as [|[k' v] l] eqn:Hf; [done|].
    assert (Hin : (k', v) ∈ filter (λ p, p.1 = k) pairs)
      by (rewrite Hf; apply elem_of_cons; by left).
    apply list_elem_of_filter in Hin as [Hk Hin]. cbn in Hk. subst k'.
    apply list_elem_of_fmap. by exists (k, v).
  - intros ([k' v] & -> & Hin)%list_elem_of_fmap Hnil.
    assert (Hf : (k', v) ∈ filter (λ p, p.1 = (k', v).1) pairs)
      by (by apply list_elem_of_filter).
    apply (list_elem_of_fmap_2 snd) in Hf. rewrite Hnil in Hf.
    by apply elem_of_nil in Hf.
Qed.

Lemma sorted_keys_elem (cols : gmap Z string) k :
  k ∈ sorted_keys cols ↔ is_Some (cols !! k).
Proof.
  unfold sorted_keys. rewrite merge_sort_Permutation, list_elem_of_fmap. split.
  - intros ([k' v] & -> & Hkv). apply elem_of_map_to_list in Hkv. by eexists.
  - intros [v Hv]. exists (k, v). split; [done|]. by apply elem_of_map_to_list.
Qed.

Lemma sorted_cols_lookups (cols : gmap Z string) l :
  sorted_cols cols = Some l →
  Forall2 (λ k c, cols !! k = Some c) (sorted_keys cols) l.
Proof. intros Hl. by apply mapM_Some in Hl. Qed.

(** When rows of the primary key repeat a position, the column of the
    last such row stands at that position: the primary key has one column
    per distinct position, the positions strictly ascending. *)
Theorem primary_key_last_row_wins (rows : list constraint_row) :
  ∃ pk uqs keys,
    get_table_constraints rows = Some (pk, uqs) ∧
    StronglySorted Z.lt keys ∧
    (∀ k, k ∈ keys ↔ k ∈ (pk_pairs rows).*1) ∧
    Forall2 (λ k c, last_col k (pk_pairs rows) = Some c) keys pk.
Proof.
  destruct (get_table_constraints_total rows) as [[pk uqs] Hg].
  pose proof Hg as [Hpk _]%get_table_constraints_parts.
  exists pk, uqs, (sorted_keys (foldl pk_assign ∅
    (filter (λ r, tc_CONSTRAINT_TYPE r = "PRIMARY KEY") rows))).
  split_and!; [done|apply sorted_keys_sorted| |].
  - intros k. rewrite sorted_keys_elem, <-last_col_is_Some.
    unfold pk_pairs.
    by rewrite <-(foldl_insert_lookup_last kcu_ORDINAL_POSITION kcu_COLUMN_NAME).
  - apply sorted_cols_lookups in Hpk.
    eapply Forall2_impl; [exact Hpk|]. intros k c Hkc. cbn in Hkc.
    unfold pk_pairs.
    by rewrite <-(foldl_insert_lookup_last kcu_ORDINAL_POSITION kcu_COLUMN_NAME).
Qed.

Example primary_key_repeated_position :
  get_table_constraints
    [ ConstraintRow "PRIMARY" "PRIMARY KEY" "a" 1;
      ConstraintRow "PRIMARY" "PRIMARY KEY" "b" 2;
      ConstraintRow "PRIMARY" "PRIMARY KEY" "c" 1 ]
  = Some (["c"; "b"], []).
Proof. vm_compute. reflexivity. Qed.

(** A table without [PRIMARY KEY] rows gets the empty list as its primary
    key, and only such a table does. *)
Theorem primary_key_empty_iff (rows : list constraint_row) :
  ∃ pk uqs,
    get_table_constraints rows = Some (pk, uqs) ∧
    (pk = [] ↔ Forall (λ r, tc_CONSTRAINT_TYPE r ≠ "PRIMARY KEY") rows).
Proof.
  destruct (get_table_constraints_total rows) as [[pk uqs] Hg].
  pose proof Hg as [Hpk _]%get_table_constraints_parts.
  exists pk, uqs. split; [done|].
  apply sorted_cols_lookups in Hpk. apply Forall2_length in Hpk.
  rewrite Forall_forall. split.
  - intros -> r Hr Hty.
    assert (Hk : kcu_ORDINAL_POSITION r ∈ sorted_keys (foldl pk_assign ∅
              (filter (λ r, tc_CONSTRAINT_TYPE r = "PRIMARY KEY") rows))).
    { rewrite sorted_keys_elem.
      unfold pk_assign.
      rewrite (foldl_insert_lookup_last kcu_ORDINAL_POSITION kcu_COLUMN_NAME).
      apply last_col_is_Some. rewrite <-list_fmap_compose.
      apply list_elem_of_fmap. exists r. split; [done|].
      by apply list_elem_of_filter. }
    destruct (sorted_keys _); [by apply elem_of_nil in Hk|done].
  - intros Hnone.
    assert (Hf : filter (λ r, tc_CONSTRAINT_TYPE r = "PRIMARY KEY") rows = []).
    { destruct (filter _ rows) as [|r l] eqn:Hf; [done|].
      assert (Hin : r ∈ filter (λ r, tc_CONSTRAINT_TYPE r = "PRIMARY KEY") rows)
        by (rewrite Hf; apply elem_of_cons; by left).
      apply list_elem_of_filter in Hin as [Hty Hin]. by destruct (Hnone r Hin). }
    rewrite Hf in Hpk. cbn in Hpk. by destruct pk.
Qed.

(** The unique constraints are listed by name in the order in which the
    first row of each arrives, each name once. *)
Theorem unique_constraints_in_first_row_order (rows : list constraint_row) :
  ∃ pk uqs,
    get_table_constraints rows = Some (pk, uqs) ∧
    uq_name <$> uqs =
      first_occurrences
        (tc_CONSTRAINT_NAME <$>
         filter (λ r, tc_CONSTRAINT_TYPE r = "UNIQUE") rows) ∧
    NoDup (uq_name <$> uqs).
Proof.
  destruct (get_table_constraints_total rows) as [[pk uqs] Hg].
  pose proof Hg as [_ Huq]%get_table_constraints_parts.
  exists pk, uqs. split; [done|].
  assert (Hnames : uq_name <$> uqs =
            first_occurrences
              (tc_CONSTRAINT_NAME <$>
               filter (λ r, tc_CONSTRAINT_TYPE r = "UNIQUE") rows)).
  { rewrite <-(bucket_fold_first_occurrences tc_CONSTRAINT_NAME (λ _, ∅)
                 (λ r m, pk_assign m r)).
    apply (mapM_fmap_eq flatten_unique uq_name fst _ _ Huq).
    intros item u Hf. unfold flatten_unique in Hf.
    destruct (sorted_cols item.2); [|done]. by injection Hf as <-. }
  split; [done|]. rewrite Hnames. apply first_occurrences_NoDup.
Qed.

(** ** Buckets do not influence one another *)

Section dict_filter.
Context {K V : Type} `{EqDecision K} (P : K → Prop) `{∀ k, Decision (P k)}.
Implicit Types (d : list (K * V)).

Lemma dict_filter_set_in k v d :
  P k → filter (λ kv, P kv.1) (Dict.set k v d) = Dict.set k v (filter (λ kv, P kv.1) d).
Proof.
  intros Hk. induction d as [|[k' v'] d IH]; cbn [Dict.set].
  - by rewrite filter_cons, decide_True.
  - destruct (decide (k = k')) as [<-|Hne].
    + rewrite !filter_cons, !decide_True by done. cbn [Dict.set].
      by rewrite decide_True.
    + rewrite !filter_cons. cbn [fst]. destruct (decide (P k')).
      * cbn [Dict.set]. rewrite decide_False by done. by rewrite IH.
      * done.
Qed.

Lemma dict_filter_set_out k v d :
  ¬ P k → filter (λ kv, P kv.1) (Dict.set k v d) = filter (λ kv, P kv.1) d.
Proof.
  intros Hk. induction d as [|[k' v'] d IH]; cbn [Dict.set].
  - by rewrite filter_cons, decide_False.
  - destruct (decide (k = k')) as [<-|Hne].
    + by rewrite !filter_cons, !decide_False.
    + rewrite !filter_cons. cbn [fst]. by rewrite IH.
Qed.

Lemma dict_get_filter_in k d :
  P k → Dict.get k (filter (λ kv, P kv.1) d) = Dict.get k d.
Proof.
  intros Hk. induction d as [|[k' v'] d IH]; [done|].
  rewrite filter_cons. cbn [fst Dict.get].
  destruct (decide (P k')) as [Hk'|Hk'].
  - cbn [Dict.get]. by rewrite IH.
  - rewrite IH. rewrite decide_False; [done|]. by intros ->.
Qed.
End dict_filter.

Section bucket_filter.
Context {R B : Type} (key : R → string) (init : R → B) (add : R → B → B).
Context (P : string → Prop) `{∀ n, Decision (P n)}.

Lemma bucket_step_filter_in d r :
  P (key r) →
  filter (λ kb, P kb.1) (bucket_step key init add d r) =
  bucket_step key init add (filter (λ kb, P kb.1) d) r.
Proof.
  intros Hk. unfold bucket_step, Dict.update, Dict.mem.
  rewrite (dict_get_filter_in P (key r) d Hk).
  destruct (Dict.get (key r) d) as [b|] eqn:Hg.
  - rewrite Hg, (dict_get_filter_in P (key r) d Hk), Hg.
    by apply dict_filter_set_in.
  - rewrite !dict_get_set_eq, !dict_filter_set_in by done. done.
Qed.

Lemma bucket_step_filter_out d r :
  ¬ P (key r) →
  filter (λ kb, P kb.1) (bucket_step key init add d r) = filter (λ kb, P kb.1) d.
Proof.
  intros Hk. unfold bucket_step, Dict.update, Dict.mem.
  destruct (Dict.get (key r) d) as [b|] eqn:Hg.
  - rewrite Hg. by apply dict_filter_set_out.
  - rewrite dict_get_set_eq, !dict_filter_set_out by done. done.
Qed.

(** Dropping the buckets of some names is dropping the rows of those
    names beforehand. *)
Lemma bucket_fold_filter rows :
  filter (λ kb, P kb.1) (foldl (bucket_step key init add) [] rows) =
  foldl (bucket_step key init add) [] (filter (λ r, P (key r)) rows).
Proof.
  induction rows as [|r rows IH] using rev_ind; [done|].
  rewrite foldl_app, filter_app, filter_cons, filter_nil. cbn [foldl].
  destruct (decide (P (key r))) as [Hk|Hk].
  - rewrite foldl_app. cbn [foldl]. rewrite <-IH.
    by apply bucket_step_filter_in.
  - rewrite app_nil_r, <-IH. by apply bucket_step_filter_out.
Qed.
End bucket_filter.

(** ** More on get_table_indexes *)

Lemma ib_unique_fold rs b0 :
  ib_unique (foldl (λ b r, ix_add r b) b0 rs) = ib_unique b0.
Proof. revert b0. induction rs as [|r rs IH]; intros b0; [done|]. cbn. by rewrite IH. Qed.

Section more_indexes.
Variable str_upper : string → string.

Lemma is_secondary_spec item :
  is_secondary str_upper item ↔ str_upper item.1 ≠ "PRIMARY".
Proof.
  unfold is_secondary.
  by rewrite Is_true_true, negb_true_iff, bool_decide_eq_false.
Qed.

Lemma secondary_buckets rows :
  filter (λ item, is_secondary str_upper item) (index_buckets rows) =
  index_buckets (filter (λ r, str_upper (st_INDEX_NAME r) ≠ "PRIMARY") rows).
Proof.
  change (index_buckets rows)
    with (foldl (bucket_step st_INDEX_NAME ix_init ix_add) [] rows).
  etrans; [|exact (bucket_fold_filter st_INDEX_NAME ix_init ix_add
                     (λ n, str_upper n ≠ "PRIMARY") rows)].
  apply list_filter_iff. intros item. apply is_secondary_spec.
Qed.

(** The rows of an index named [PRIMARY], in any letter case, have no
    effect on the output: dropping them beforehand gives the same list. *)
Theorem primary_index_rows_ignored (rows : list index_row) :
  get_table_indexes str_upper rows =
  get_table_indexes str_upper
    (filter (λ r, str_upper (st_INDEX_NAME r) ≠ "PRIMARY") rows).
Proof.
  unfold get_table_indexes. rewrite !secondary_buckets.
  by rewrite filter_filter_same.
Qed.

(** The secondary indexes are listed by name in the order in which the
    first row of each arrives, each name once. *)
Theorem indexes_in_first_row_order (rows : list index_row) :
  ∃ ixs,
    get_table_indexes str_upper rows = Some ixs ∧
    ix_name <$> ixs =
      filter (λ n, str_upper n ≠ "PRIMARY")
        (first_occurrences (st_INDEX_NAME <$> rows)) ∧
    NoDup (ix_name <$> ixs).
Proof.
  destruct (get_table_indexes_total str_upper rows) as [ixs Hixs].
  exists ixs. split; [done|].
  assert (Hnames : ix_name <$> ixs =
            filter (λ n, str_upper n ≠ "PRIMARY")
              (first_occurrences (st_INDEX_NAME <$> rows))).
  { rewrite <-(bucket_fold_first_occurrences st_INDEX_NAME ix_init ix_add).
    rewrite <-index_buckets_fold.
    rewrite (mapM_fmap_eq flatten_index ix_name fst _ _ Hixs).
    - unfold Dict.keys. generalize (index_buckets rows). intros d.
      induction d as [|item d IH]; [done|].
      csimpl. rewrite !filter_cons.
      destruct (decide (is_secondary str_upper item)) as [Hs|Hs].
      + rewrite decide_True by (by apply is_secondary_spec). csimpl.
        by rewrite IH.
      + rewrite decide_False by (by rewrite <-is_secondary_spec). done.
    - intros item i Hf. unfold flatten_index in Hf.
      destruct (sorted_cols _); [|done]. by injection Hf as <-. }
  split; [done|]. rewrite Hnames. apply NoDup_filter, first_occurrences_NoDup.
Qed.

(** The uniqueness flag of an index is read off the first row of that
    index to arrive; the [NON_UNIQUE] of its later rows is not looked at. *)
Theorem index_unique_from_first_row (rows : list index_row) :
  ∃ ixs,
    get_table_indexes str_upper rows = Some ixs ∧
    Forall (λ i, ∃ r0, head (ix_rows_of (ix_name i) rows) = Some r0 ∧
                       ix_unique i = bool_decide (st_NON_UNIQUE r0 = 0)) ixs.
Proof.
  destruct (get_table_indexes_total str_upper rows) as [ixs Hixs].
  exists ixs. split; [done|]. apply Forall_forall. intros i Hi.
  destruct (mapM_elem_r _ _ _ _ Hixs Hi) as ([n b] & Hnb & Hf).
  apply list_elem_of_filter in Hnb as [_ Hnb].
  unfold flatten_index in Hf. cbn in Hf.
  destruct (sorted_cols (ib_columns b)); [|done]. injection Hf as <-. cbn.
  rewrite index_buckets_fold in Hnb. apply bucket_fold_elem in Hnb.
  unfold bucket_of in Hnb. unfold ix_rows_of.
  destruct (filter _ rows) as [|r0 rs]; [done|]. injection Hnb as <-.
  exists r0. split; [done|].
  by rewrite (ib_unique_fold rs (ix_add r0 (ix_init r0))).
Qed.
End more_indexes.

Example index_unique_flag_of_first_row :
  get_table_indexes Ascii7.upper
    [ IndexRow "ix" 0 1 "a"; IndexRow "ix" 1 2 "b" ] =
  Some [Index "ix" true ["a"; "b"]].
Proof. vm_compute. reflexivity. Qed.

(** ** More on get_table_foreign_keys *)

Lemma fk_fold_scalars rs b0 :
  let b := foldl (λ b r, fk_append r b) b0 rs in
  fk_ref_table b = fk_ref_table b0 ∧
  fk_on_update b = fk_on_update b0 ∧
  fk_on_delete b = fk_on_delete b0.
Proof.
  revert b0. induction rs as [|r rs IH]; intros b0; cbn; [done|].
  by destruct (IH (fk_append r b0)) as (-> & -> & ->).
Qed.

(** The bucket behind a foreign key of the output. *)
Lemma foreign_key_bucket rows fk :
  fk ∈ get_table_foreign_keys rows →
  ∃ r0 rs, fk_rows_of (fk_name fk) rows = r0 :: rs ∧
           fk = foldl (λ b r, fk_append r b) (fk_init r0) (r0 :: rs).
Proof.
  unfold get_table_foreign_keys, Dict.values.
  intros ([n b] & -> & Hnb)%list_elem_of_fmap. cbn [snd].
  change (foldl fk_step [] rows)
    with (foldl (bucket_step fk_CONSTRAINT_NAME fk_init fk_append) [] rows) in Hnb.
  apply bucket_fold_elem in Hnb. unfold bucket_of in Hnb.
  destruct (filter _ rows) as [|r0 rs] eqn:Hf; [done|]. injection Hnb as <-.
  assert (Hr0 : fk_CONSTRAINT_NAME r0 = n).
  { assert (Hin : r0 ∈ filter (λ r, fk_CONSTRAINT_NAME r = n) rows)
      by (rewrite Hf; apply elem_of_cons; by left).
    by apply list_elem_of_filter in Hin as [? _]. }
  exists r0, rs. split; [|done].
  destruct (fk_fold_fields rs (fk_append r0 (fk_init r0))) as (Hname & _).
  cbn zeta in Hname. rewrite Hname. cbn [fk_append fk_init fk_name].
  unfold fk_rows_of. by rewrite Hr0.
Qed.

(** The foreign keys are listed by name in the order in which the first
    row of each arrives, each name once. *)
Theorem foreign_keys_in_first_row_order (rows : list fk_row) :
  fk_name <$> get_table_foreign_keys rows =
    first_occurrences (fk_CONSTRAINT_NAME <$> rows) ∧
  NoDup (fk_name <$> get_table_foreign_keys rows).
Proof.
  assert (Hnames : fk_name <$> get_table_foreign_keys rows =
                   first_occurrences (fk_CONSTRAINT_NAME <$> rows)).
  { rewrite <-(bucket_fold_first_occurrences fk_CONSTRAINT_NAME fk_init fk_append).
    unfold get_table_foreign_keys, Dict.values, Dict.keys.
    change (foldl (bucket_step fk_CONSTRAINT_NAME fk_init fk_append) [] rows)
      with (foldl fk_step [] rows).
    assert (Hkey : ∀ k b, (k, b) ∈ foldl fk_step [] rows → fk_name b = k).
    { intros k b Hkb.
      assert (Hb : b ∈ get_table_foreign_keys rows).
      { unfold get_table_foreign_keys, Dict.values.
        apply list_elem_of_fmap. by exists (k, b). }
      destruct (foreign_key_bucket rows b Hb) as (r0 & rs & Hrows & _).
      change (foldl fk_step [] rows)
        with (foldl (bucket_step fk_CONSTRAINT_NAME fk_init fk_append) [] rows)
        in Hkb.
      apply bucket_fold_elem in Hkb. unfold bucket_of in Hkb.
      destruct (filter (λ r, fk_CONSTRAINT_NAME r = k) rows) as [|r1 rs1] eqn:Hf;
        [done|]. injection Hkb as <-.
      destruct (fk_fold_fields rs1 (fk_append r1 (fk_init r1))) as (-> & _).
      cbn. assert (Hin : r1 ∈ filter (λ r, fk_CONSTRAINT_NAME r = k) rows)
        by (rewrite Hf; apply elem_of_cons; by left).
      by apply list_elem_of_filter in Hin as [? _]. }
    revert Hkey. generalize (foldl fk_step [] rows). intros d Hkey.
    induction d as [|[k b] d IH]; [done|]. csimpl.
    rewrite (Hkey k b) by (apply elem_of_cons; by left).
    f_equal. apply IH. intros k' b' Hin. apply Hkey, elem_of_cons. by right. }
  split; [done|]. rewrite Hnames. apply first_occurrences_NoDup.
Qed.

(** The referenced table and the two rules of a foreign key are those of
    the first row of that key to arrive. *)
Theorem foreign_key_fields_from_first_row (rows : list fk_row) :
  Forall (λ fk, ∃ r0, head (fk_rows_of (fk_name fk) rows) = Some r0 ∧
                      fk_ref_table fk = fk_row_ref_table r0 ∧
                      fk_on_update fk = fk_UPDATE_RULE r0 ∧
                      fk_on_delete fk = fk_DELETE_RULE r0)
    (get_table_foreign_keys rows).
Proof.
  apply Forall_forall. intros fk Hfk.
  destruct (foreign_key_bucket rows fk Hfk) as (r0 & rs & Hrows & Hb).
  exists r0. rewrite Hrows. split; [done|].
  destruct (fk_fold_scalars (r0 :: rs) (fk_init r0)) as (Ht & Hu & Hd).
  cbn zeta in Ht, Hu, Hd. by rewrite Hb, Ht, Hu, Hd.
Qed.

(** No row is dropped: each row's local and referenced column stand, at
    one and the same index, in the foreign key that carries the row's
    constraint name. *)
Theorem foreign_key_rows_all_kept (rows : list fk_row) :
  Forall (λ r, ∃ fk (i : nat),
                 fk ∈ get_table_foreign_keys rows ∧
                 fk_name fk = fk_CONSTRAINT_NAME r ∧
                 fk_columns fk !! i = Some (fk_COLUMN_NAME r) ∧
                 fk_ref_columns fk !! i = Some (fk_row_ref_column r)) rows.
Proof.
  apply Forall_forall. intros r Hr.
  assert (Hn : fk_CONSTRAINT_NAME r ∈ fk_name <$> get_table_foreign_keys rows)
    by (apply foreign_key_names; by apply list_elem_of_fmap_2).
  apply list_elem_of_fmap in Hn as (fk & Hname & Hfk).
  destruct (foreign_key_rows rows fk Hfk) as (_ & Hcols & Hrefs).
  assert (Hin : r ∈ fk_rows_of (fk_name fk) rows).
  { apply list_elem_of_filter. by split. }
  apply list_elem_of_lookup in Hin as [i Hi].
  exists fk, i. split_and!; [done|done| |].
  - by rewrite Hcols, list_lookup_fmap, Hi.
  - by rewrite Hrefs, list_lookup_fmap, Hi.
Qed.

(** ** More on get_table_ddl *)

(** The DDL is the [Create Table] entry of the first row fetched; a first
    row without that entry gives the empty string, and further rows are
    not looked at. *)
Theorem get_table_ddl_first_row (row : gmap string string)
    (rest : list (gmap string string)) :
  get_table_ddl (row :: rest) = default "" (row !! "Create Table").
Proof.
  unfold get_table_ddl. cbn [fetchone head].
  case_bool_decide as Hrow; [|done]. by rewrite Hrow, lookup_empty.
Qed.

(** ** More on the delimiters of the filter *)

Lemma endswith_slash_drop_last s :
  endswith_slash s = true → s = drop_last s +:+ "/".
Proof.
  induction s as [|c s IH]; [done|]. destruct s as [|c' s].
  - cbn. by intros ->%bool_decide_eq_true.
  - intros Hs. change (endswith_slash (String c' s) = true) in Hs.
    change (drop_last (String c (String c' s)))
      with (String c (drop_last (String c' s))).
    change (String c (drop_last (String c' s)) +:+ "/")
      with (String c (drop_last (String c' s) +:+ "/")).
    by rewrite <-IH.
Qed.

(** Stripping changes a filter in two cases only: the one-character
    filter [/] becomes the empty pattern, and a filter [/t/] becomes [t];
    any other filter is compiled as it is. *)
Theorem strip_delimiters_cases (s : string) :
  (strip_delimiters s = s ∧ startswith_slash s && endswith_slash s = false) ∨
  (s = "/" ∧ strip_delimiters s = "") ∨
  s = "/" +:+ strip_delimiters s +:+ "/".
Proof.
  unfold strip_delimiters.
  destruct (startswith_slash s && endswith_slash s) eqn:Hs; [|by left].
  right. apply andb_true_iff in Hs as [Hstart Hend].
  destruct s as [|c s]; [done|]. cbn in Hstart.
  apply bool_decide_eq_true in Hstart as ->.
  destruct s as [|c' s]; [by left|]. right.
  change (endswith_slash (String c' s) = true) in Hend.
  cbn [slice_1_m1].
  change ("/" +:+ drop_last (String c' s) +:+ "/")
    with (String "/" (drop_last (String c' s) +:+ "/")).
  by rewrite <-endswith_slash_drop_last.
Qed.

(** ** More on the run *)

Section more_run.
Context {pattern : Type}.
Variable re_compile : string → option pattern.
Variable re_match : pattern → string → bool.
Variable py_int : string → option Z.
Variable str_upper : string → string.

Abbreviation main' := (main re_compile re_match py_int str_upper).
Abbreviation reaches' := (reaches_export re_compile py_int).

Lemma table_events_queries db_name total current table :
  table_events db_name total current table =
  Print (MsgProcessingTable current total table) ::
  (Execute <$> table_queries db_name table).
Proof. reflexivity. Qed.

(** The loop, with its trace. *)
Lemma process_tables_run conn db_name pat total tables current tables_out :
  ∃ recs,
    process_tables re_match str_upper conn db_name pat total tables
      current tables_out =
    (progress_events db_name total current
       (filter (λ table, re_match pat table) tables),
     inr (tables_out ++ recs)) ∧
    tr_name <$> recs = filter (λ table, re_match pat table) tables ∧
    Forall (λ rec, (export_table str_upper conn db_name (tr_name rec)).2
                   = inr rec) recs.
Proof.
  revert current tables_out.
  induction tables as [|table tables IH]; intros current tables_out.
  - exists []. by rewrite app_nil_r.
  - cbn [process_tables]. rewrite filter_cons.
    destruct (re_match pat table) eqn:Hm; cbn [negb].
    + destruct (export_table_ok str_upper conn db_name table)
        as (rec & Hrec & Hname).
      destruct (IH (S current) (tables_out ++ [rec])) as (recs & Ht & Hn & Hall).
      unfold print, emit. rewrite bind_value, Hrec, bind_value, Ht.
      rewrite decide_True by done.
      exists (rec :: recs). split_and!.
      * by rewrite <-app_assoc.
      * csimpl. by rewrite Hname, Hn.
      * constructor; [|done]. by rewrite Hname, Hrec.
    + destruct (IH current tables_out) as (recs & Ht & Hn & Hall).
      exists recs. rewrite decide_False by (by intros []). done.
Qed.

(** A run that reaches the export, event by event. *)
Lemma main_export_trace w db_port pat conn :
  reaches' w db_port pat conn →
  ∃ recs,
    main' w =
    (config_trace (w_config_ini w) ++
     [ Mkdir (str_of (output_dir_of w));
       Connect (str_of (db_host_of w)) db_port (str_of (db_user_of w))
         (str_of (db_pass_of w)) (str_of (db_name_of w));
       Print (MsgConnected (str_of (db_name_of w)) (str_of (db_host_of w)));
       Execute QShowFullTables;
       Print (MsgProcessing (length (rows_BASE_TABLES conn)) (effective_filter w)) ] ++
     progress_events (str_of (db_name_of w)) (length (rows_BASE_TABLES conn)) 0
       (filter (λ table, re_match pat table) (rows_BASE_TABLES conn)) ++
     [ WriteJson (output_file_of w)
         {| doc_database := str_of (db_name_of w); doc_generated_at := w_now w;
            doc_schema_version := schema_version_of w; doc_tables := recs |} ] ++
     (if w_write_ok w (output_file_of w)
      then [Print (MsgExportComplete (output_file_of w));
            Print (MsgExported (length recs))]
      else [Print (MsgWriteFailed (output_file_of w))]) ++
     [CloseConnection],
     if w_write_ok w (output_file_of w) then Exit 0 else Exit 1) ∧
    tr_name <$> recs =
      filter (λ table, re_match pat table) (rows_BASE_TABLES conn) ∧
    Forall (λ rec, (export_table str_upper conn (str_of (db_name_of w))
                      (tr_name rec)).2 = inr rec) recs.
Proof.
  intros (Hhelp & Hport & Hname & Huser & Hpat & Hmkdir & Hconn).
  destruct (process_tables_run conn (str_of (db_name_of w)) pat
              (length (rows_BASE_TABLES conn)) (rows_BASE_TABLES conn) O [])
    as (recs & Ht & Hn & Hall).
  exists recs. split; [|done].
  unfold main. rewrite main_body_stages, Hhelp. unfold resolved_run.
  rewrite Hport, bind_ret, Hname, Huser. cbn [negb orb].
  unfold validated_run. rewrite Hpat. unfold emit at 1. rewrite bind_value.
  rewrite Hmkdir. cbn [negb]. unfold connected_run. cbv zeta.
  unfold emit at 1. rewrite bind_value, Hconn.
  unfold export_schema. rewrite Hpat. unfold print, emit.
  rewrite !bind_value, bind_ret, Ht. cbn [app].
  rewrite bind_value. unfold finally.
  destruct (w_write_ok w (output_file_of w)); cbn;
    by rewrite <-?app_assoc.
Qed.

Lemma progress_events_execute db_name total current selected q :
  Execute q ∈ progress_events db_name total current selected ↔
  ∃ table, table ∈ selected ∧ q ∈ table_queries db_name table.
Proof.
  revert current. induction selected as [|t sel IH]; intros current.
  - cbn. split; [by intros ?%elem_of_nil|]. by intros (? & ?%elem_of_nil & _).
  - cbn [progress_events]. rewrite elem_of_app, IH, table_events_queries.
    rewrite elem_of_cons, list_elem_of_fmap. split.
    + intros [[[=]|(q' & [= <-] & Hq)]|(table & Hin & Hq)].
      * exists t. split; [apply elem_of_cons; by left|done].
      * exists table. split; [apply elem_of_cons; by right|done].
    + intros (table & [->|Hin]%elem_of_cons & Hq).
      * left. right. by exists q.
      * right. by exists table.
Qed.

Lemma progress_events_print db_name total current selected m :
  Print m ∈ progress_events db_name total current selected ↔
  ∃ (i : nat) table, selected !! i = Some table ∧
                     m = MsgProcessingTable (current + S i) total table.
Proof.
  revert current. induction selected as [|t sel IH]; intros current.
  - cbn. split; [by intros ?%elem_of_nil|]. by intros (? & ? & [=] & _).
  - cbn [progress_events]. rewrite elem_of_app, IH, table_events_queries.
    rewrite elem_of_cons, list_elem_of_fmap. split.
    + intros [[[= ->]|(q' & [=] & _)]|(i & table & Hi & ->)].
      * exists O, t. split; [done|]. f_equal. lia.
      * exists (S i), table. split; [done|]. f_equal. lia.
    + intros ([|i] & table & Hi & ->).
      * injection Hi as ->. left. left. f_equal. f_equal. lia.
      * right. exists i, table. split; [done|]. f_equal. lia.
Qed.

Lemma progress_events_count db_name total current selected :
  length (filter (λ e, is_execute e) (progress_events db_name total current selected))
  = (6 * length selected)%nat.
Proof.
  revert current. induction selected as [|t sel IH]; intros current; [done|].
  cbn [progress_events]. rewrite filter_app, length_app, IH.
  assert (Hsix : length (filter (λ e, is_execute e)
                           (table_events db_name total (S current) t)) = 6%nat)
    by reflexivity.
  rewrite Hsix. cbn [length]. lia.
Qed.

Lemma progress_events_no_close db_name total current selected :
  CloseConnection ∉ progress_events db_name total current selected.
Proof.
  revert current. induction selected as [|t sel IH]; intros current.
  - apply not_elem_of_nil.
  - cbn [progress_events]. rewrite elem_of_app. intros [Hin|Hin].
    + rewrite table_events_queries in Hin.
      apply elem_of_cons in Hin as [[=]|Hin].
      by apply list_elem_of_fmap in Hin as (? & [=] & _).
    + by apply IH in Hin.
Qed.

Lemma config_trace_prints ini e : e ∈ config_trace ini → e = Print MsgConfigWarning.
Proof.
  destruct ini; cbn; [by intros ?%elem_of_nil| |by intros ?%elem_of_nil].
  by intros ->%list_elem_of_singleton.
Qed.

(** In a run that reaches the export, the queries are the table listing
    and, for every base table the pattern accepts, the six queries of that
    table: a table the filter leaves out is never queried.  The run
    issues one plus six times the number of accepted tables queries. *)
Theorem only_selected_tables_queried (w : world) (db_port : Z) (pat : pattern)
    (conn : connection) :
  reaches' w db_port pat conn →
  (∀ q, Execute q ∈ (main' w).1 ↔
        q = QShowFullTables ∨
        ∃ table, table ∈ rows_BASE_TABLES conn ∧ re_match pat table = true ∧
                 q ∈ table_queries (str_of (db_name_of w)) table) ∧
  length (filter (λ e, is_execute e) (main' w).1) =
    (1 + 6 * length (filter (λ table, re_match pat table) (rows_BASE_TABLES conn)))%nat.
Proof.
  intros Hreach.
  destruct (main_export_trace w db_port pat conn Hreach) as (recs & -> & _ & _).
  cbn [fst]. split.
  - intros q. rewrite !elem_of_app, progress_events_execute. split.
    + intros [Hc|[Hfix|[(table & Hsel & Hq)|[Hw|[Ht|Hcl]]]]].
      * by apply config_trace_prints in Hc.
      * left. repeat (apply elem_of_cons in Hfix as [[=]|Hfix]; try done).
        by apply elem_of_nil in Hfix.
      * right. exists table. apply list_elem_of_filter in Hsel as [Hm Hin].
        by apply Is_true_true in Hm.
      * by apply list_elem_of_singleton in Hw.
      * destruct (w_write_ok w (output_file_of w));
          repeat (apply elem_of_cons in Ht as [[=]|Ht]);
          by apply elem_of_nil in Ht.
      * by apply list_elem_of_singleton in Hcl.
    + intros [->|(table & Hin & Hm & Hq)].
      * right. left. do 3 (apply elem_of_cons; right). apply elem_of_cons. by left.
      * right. right. left. exists table. split; [|done].
        apply list_elem_of_filter. split; [by apply Is_true_true|done].
  - rewrite !filter_app, !length_app, progress_events_count.
    assert (Hcfg : filter (λ e, is_execute e) (config_trace (w_config_ini w)) = [])
      by (by destruct (w_config_ini w)).
    rewrite Hcfg. destruct (w_write_ok w (output_file_of w));
      repeat match goal with
      | |- context [length (filter ?P (?e :: ?l))] =>
          let v := eval vm_compute in (length (filter P (e :: l))) in
          change (length (filter P (e :: l))) with v
      end; cbn [length]; lia.
Qed.

(** The progress line of the accepted table number [k] reads [k] of the
    number of all base tables, accepted or not; there are no other
    progress lines. *)
Theorem progress_counts_selected_of_all (w : world) (db_port : Z) (pat : pattern)
    (conn : connection) :
  reaches' w db_port pat conn →
  ∀ k total table,
    Print (MsgProcessingTable k total table) ∈ (main' w).1 ↔
    total = length (rows_BASE_TABLES conn) ∧
    ∃ i : nat, k = S i ∧
      filter (λ table, re_match pat table) (rows_BASE_TABLES conn) !! i
      = Some table.
Proof.
  intros Hreach k total table.
  destruct (main_export_trace w db_port pat conn Hreach) as (recs & -> & _ & _).
  cbn [fst]. rewrite !elem_of_app, progress_events_print. split.
  - intros [Hc|[Hfix|[(i & table' & Hi & [= -> -> ->])|[Hw|[Ht|Hcl]]]]].
    + by apply config_trace_prints in Hc.
    + repeat (apply elem_of_cons in Hfix as [[=]|Hfix]; try done).
      by apply elem_of_nil in Hfix.
    + split; [done|]. by exists i.
    + by apply list_elem_of_singleton in Hw.
    + destruct (w_write_ok w (output_file_of w));
        repeat (apply elem_of_cons in Ht as [[=]|Ht]);
        by apply elem_of_nil in Ht.
    + by apply list_elem_of_singleton in Hcl.
  - intros (-> & i & -> & Hi). right. right. left. by exists i, table.
Qed.

(** A run that opened a connection closes it, once, as its last action,
    whether or not the output file could be written; a failed write ends
    the run with status 1. *)
Theorem connection_closed_last (w : world) (db_port : Z) (pat : pattern)
    (conn : connection) :
  reaches' w db_port pat conn →
  ∃ t,
    (main' w).1 = t ++ [CloseConnection] ∧
    (CloseConnection ∉ t) ∧
    (main' w).2 = (if w_write_ok w (output_file_of w) then Exit 0 else Exit 1).
Proof.
  intros Hreach.
  destruct (main_export_trace w db_port pat conn Hreach) as (recs & -> & _ & _).
  cbn [fst snd]. eexists. split_and!; [by rewrite !app_assoc| |done].
  rewrite !elem_of_app. intros [[[[Hc|Hfix]|Hp]|Hw]|Ht].
  - by apply config_trace_prints in Hc.
  - repeat (apply elem_of_cons in Hfix as [[=]|Hfix]; try done).
    by apply elem_of_nil in Hfix.
  - by apply progress_events_no_close in Hp.
  - by apply list_elem_of_singleton in Hw.
  - destruct (w_write_ok w (output_file_of w));
      repeat (apply elem_of_cons in Ht as [[=]|Ht]);
      by apply elem_of_nil in Ht.
Qed.

(** A filter that does not compile ends the run with the error line and
    status 1 before anything else happens: no directory is made, no
    connection opened.  The line shows the filter as stripped. *)
Theorem invalid_filter_aborts (w : world) (db_port : Z) :
  a_help (w_args w) = false →
  int_ py_int (db_port_of w) = mret db_port →
  truthy (db_name_of w) = true →
  truthy (db_user_of w) = true →
  re_compile (effective_filter w) = None →
  main' w = (config_trace (w_config_ini w) ++
               [Print (MsgInvalidRegex (effective_filter w))], Exit 1).
Proof.
  intros Hhelp Hport Hname Huser Hpat.
  unfold main. rewrite main_body_stages, Hhelp. unfold resolved_run.
  rewrite Hport, bind_ret, Hname, Huser. cbn [negb orb].
  unfold validated_run. by rewrite Hpat.
Qed.

(** When the server refuses the connection the run ends with status 1
    after the failure line; the output directory has been made by then,
    nothing is queried or written, and no connection is closed. *)
Theorem connection_failure_after_mkdir (w : world) (db_port : Z) (pat : pattern) :
  a_help (w_args w) = false →
  int_ py_int (db_port_of w) = mret db_port →
  truthy (db_name_of w) = true →
  truthy (db_user_of w) = true →
  re_compile (effective_filter w) = Some pat →
  w_mkdir_ok w (str_of (output_dir_of w)) = true →
  w_connect w (str_of (db_host_of w)) db_port (str_of (db_user_of w))
    (str_of (db_pass_of w)) (str_of (db_name_of w)) = None →
  main' w =
  (config_trace (w_config_ini w) ++
     [ Mkdir (str_of (output_dir_of w));
       Connect (str_of (db_host_of w)) db_port (str_of (db_user_of w))
         (str_of (db_pass_of w)) (str_of (db_name_of w));
       Print MsgConnectionFailed ], Exit 1).
Proof.
  intros Hhelp Hport Hname Huser Hpat Hmkdir Hconn.
  unfold main. rewrite main_body_stages, Hhelp. unfold resolved_run.
  rewrite Hport, bind_ret, Hname, Huser. cbn [negb orb].
  unfold validated_run. rewrite Hpat. unfold emit at 1. rewrite bind_value.
  rewrite Hmkdir. cbn [negb]. unfold connected_run. cbv zeta.
  unfold emit at 1. by rewrite bind_value, Hconn.
Qed.

(** A port taken from the environment that [int] rejects ends the run
    with an uncaught [ValueError] during the resolution: nothing is
    printed beyond a config warning, whatever the other settings are. *)
Theorem unparsable_port_raises (w : world) (s : string) :
  a_help (w_args w) = false →
  a_port (w_args w) = None →
  w_environ w !! "DB_PORT" = Some s →
  py_int s = None →
  main' w = (config_trace (w_config_ini w), Uncaught "ValueError").
Proof.
  intros Hhelp Hcli Henv Hint.
  unfold main. rewrite main_body_stages, Hhelp. unfold resolved_run.
  assert (Hport : db_port_of w = VStr s).
  { unfold db_port_of, setting, get_config_value. by rewrite Hcli, Henv. }
  rewrite Hport. cbn [int_]. rewrite Hint. cbn. by rewrite app_nil_r.
Qed.

(** The run ends with status 0 in two cases only: [--help] was given, or
    the run reached the export and the output file was written. *)
Theorem exit_zero_iff (w : world) :
  (main' w).2 = Exit 0 ↔
  a_help (w_args w) = true ∨
  ∃ db_port pat conn,
    reaches' w db_port pat conn ∧ w_write_ok w (output_file_of w) = true.
Proof.
  split.
  - intros Hexit. destruct (a_help (w_args w)) eqn:Hhelp; [by left|]. right.
    destruct (int_cases py_int (db_port_of w)) as [[n Hn]|[e He]];
    destruct (truthy (db_name_of w)) eqn:Hname;
    destruct (truthy (db_user_of w)) eqn:Huser;
    destruct (re_compile (effective_filter w)) as [pat|] eqn:Hpat;
    destruct (w_mkdir_ok w (str_of (output_dir_of w))) eqn:Hmkdir;
    try (exfalso; revert Hexit; unfold main;
         rewrite main_body_stages, Hhelp; unfold resolved_run;
         rewrite ?Hn, ?He, ?bind_ret, ?Hname, ?Huser; cbn [negb orb];
         unfold validated_run; rewrite ?Hpat; try (unfold emit at 1);
         rewrite ?bind_value, ?Hmkdir; by cbn).
    destruct (w_connect w (str_of (db_host_of w)) n (str_of (db_user_of w))
                (str_of (db_pass_of w)) (str_of (db_name_of w)))
      as [conn|] eqn:Hconn.
    + assert (Hreach : reaches' w n pat conn) by done.
      exists n, pat, conn. split; [done|].
      destruct (main_export_trace w n pat conn Hreach) as (recs & Hmain & _).
      rewrite Hmain in Hexit. cbn [snd] in Hexit.
      by destruct (w_write_ok w (output_file_of w)).
    + exfalso. revert Hexit. unfold main.
      rewrite main_body_stages, Hhelp. unfold resolved_run.
      rewrite Hn, bind_ret, Hname, Huser. cbn [negb orb].
      unfold validated_run. rewrite Hpat. unfold emit at 1. rewrite bind_value.
      rewrite Hmkdir. cbn [negb]. unfold connected_run. cbv zeta.
      unfold emit at 1. by rewrite bind_value, Hconn.
  - intros [Hhelp|(n & pat & conn & Hreach & Hw)].
    + unfold main. by rewrite main_body_stages, Hhelp.
    + destruct (main_export_trace w n pat conn Hreach) as (recs & -> & _).
      cbn [snd]. by rewrite Hw.
Qed.

(** A [config.ini] that cannot be parsed is ignored with a warning: the
    run goes on as it would without the file.  With [--help] the file is
    not read at all. *)
Theorem unreadable_config_is_ignored (w : world) :
  main' (with_ini IniUnreadable w) =
  if a_help (w_args w) then main' (with_ini IniMissing w)
  else (Print MsgConfigWarning :: (main' (with_ini IniMissing w)).1,
        (main' (with_ini IniMissing w)).2).
Proof.
  unfold main. rewrite !main_body_stages.
  cbn [with_ini w_args w_config_ini config_trace].
  destruct (a_help (w_args w)); [done|].
  assert (Hsame :
    resolved_run re_compile re_match py_int str_upper (with_ini IniUnreadable w) =
    resolved_run re_compile re_match py_int str_upper (with_ini IniMissing w))
    by reflexivity.
  rewrite Hsame. by destruct (resolved_run _ _ _ _ _) as [t [o|[]]].
Qed.

Lemma export_table_fields conn db_name table rec :
  (export_table str_upper conn db_name table).2 = inr rec →
  tr_name rec = table ∧
  tr_columns rec = get_table_columns (rows_COLUMNS conn db_name table) ∧
  get_table_constraints (rows_TABLE_CONSTRAINTS conn db_name table) =
    Some (tr_primary_key rec, tr_unique rec) ∧
  get_table_indexes str_upper (rows_STATISTICS conn db_name table) =
    Some (tr_indexes rec) ∧
  tr_foreign_keys rec = get_table_foreign_keys (rows_REFERENTIAL conn db_name table) ∧
  tr_table_info rec = get_table_info (rows_TABLES conn db_name table) ∧
  tr_ddl rec = get_table_ddl (rows_SHOW_CREATE conn table).
Proof.
  unfold export_table.
  destruct (get_table_constraints _) as [[pk uqs]|]; [|done].
  destruct (get_table_indexes _ _) as [ixs|]; [|done].
  cbn. by intros [= <-].
Qed.

(** Every table record of the written document is put together from the
    six query results of the table it names, and those tables are the
    accepted ones in catalog order. *)
Theorem table_records_from_own_rows (w : world) (db_port : Z) (pat : pattern)
    (conn : connection) :
  reaches' w db_port pat conn →
  ∃ tables_out,
    WriteJson (output_file_of w)
      {| doc_database := str_of (db_name_of w); doc_generated_at := w_now w;
         doc_schema_version := schema_version_of w;
         doc_tables := tables_out |} ∈ (main' w).1 ∧
    Forall (λ rec,
      let db_name := str_of (db_name_of w) in
      let table := tr_name rec in
      tr_columns rec = get_table_columns (rows_COLUMNS conn db_name table) ∧
      get_table_constraints (rows_TABLE_CONSTRAINTS conn db_name table) =
        Some (tr_primary_key rec, tr_unique rec) ∧
      get_table_indexes str_upper (rows_STATISTICS conn db_name table) =
        Some (tr_indexes rec) ∧
      tr_foreign_keys rec =
        get_table_foreign_keys (rows_REFERENTIAL conn db_name table) ∧
      tr_table_info rec = get_table_info (rows_TABLES conn db_name table) ∧
      tr_ddl rec = get_table_ddl (rows_SHOW_CREATE conn table)) tables_out.
Proof.
  intros Hreach.
  destruct (main_export_trace w db_port pat conn Hreach) as (recs & -> & _ & Hall).
  exists recs. cbn [fst]. split.
  - rewrite !elem_of_app. do 3 right. left. by apply list_elem_of_singleton.
  - eapply Forall_impl; [exact Hall|]. intros rec Hrec. cbn zeta.
    by destruct (export_table_fields _ _ _ _ Hrec) as (_ & ? & ? & ? & ? & ? & ?).
Qed.
End more_run.

Lemma only_selected_tables_queried_witness :
  let w := shop_world (shop_args (Some "user")) in
  (∀ q, Execute q ∈ (run w).1 ↔
        q = QShowFullTables ∨
        ∃ table, table ∈ rows_BASE_TABLES shop ∧
                 Re.re_match user_pattern table = true ∧
                 q ∈ table_queries (str_of (db_name_of w)) table) ∧
  length (filter (λ e, is_execute e) (run w).1) =
    (1 + 6 * length (filter (λ table, Re.re_match user_pattern table)
                       (rows_BASE_TABLES shop)))%nat.
Proof.
  apply (only_selected_tables_queried Re.re_compile Re.re_match Ascii7.int
           Ascii7.upper (shop_world (shop_args (Some "user"))) 3306
           user_pattern shop).
  repeat split; vm_compute; reflexivity.
Defined.

Lemma progress_counts_selected_of_all_witness :
  let w := shop_world (shop_args (Some "user")) in
  Print (MsgProcessingTable 2 3 "user_roles") ∈ (run w).1 ↔
  3%nat = length (rows_BASE_TABLES shop) ∧
  ∃ i : nat, 2%nat = S i ∧
    filter (λ table, Re.re_match user_pattern table) (rows_BASE_TABLES shop) !! i
    = Some "user_roles".
Proof.
  apply (progress_counts_selected_of_all Re.re_compile Re.re_match Ascii7.int
           Ascii7.upper (shop_world (shop_args (Some "user"))) 3306
           user_pattern shop).
  repeat split; vm_compute; reflexivity.
Defined.

(** Two of three tables accepted: the lines read 1/3 and 2/3. *)
Example progress_lines_of_user_filter :
  filter (λ e, negb (is_execute e))
    (progress_events "shop" 3 0 ["users"; "user_roles"]) =
  [ Print (MsgProcessingTable 1 3 "users");
    Print (MsgProcessingTable 2 3 "user_roles") ].
Proof. vm_compute. reflexivity. Qed.

Lemma connection_closed_last_witness :
  let w := readonly_world (shop_args None) in
  ∃ t,
    (run w).1 = t ++ [CloseConnection] ∧
    (CloseConnection ∉ t) ∧
    (run w).2 = (if w_write_ok w (output_file_of w) then Exit 0 else Exit 1).
Proof.
  apply (connection_closed_last Re.re_compile Re.re_match Ascii7.int
           Ascii7.upper (readonly_world (shop_args None)) 3306
           (Re.Cat (Re.Star Re.Dot) Re.Eps) shop).
  repeat split; vm_compute; reflexivity.
Defined.

Example write_failure_run_ends :
  (run (readonly_world (shop_args (Some "orders")))).2 = Exit 1 ∧
  last (run (readonly_world (shop_args (Some "orders")))).1 = Some CloseConnection.
Proof. split; vm_compute; reflexivity. Qed.

Lemma invalid_filter_aborts_witness :
  let w := shop_world (shop_args (Some "*")) in
  run w = (config_trace (w_config_ini w) ++
             [Print (MsgInvalidRegex (effective_filter w))], Exit 1).
Proof.
  apply (invalid_filter_aborts Re.re_compile Re.re_match Ascii7.int
           Ascii7.upper (shop_world (shop_args (Some "*"))) 3306);
    vm_compute; reflexivity.
Defined.

Lemma connection_failure_after_mkdir_witness :
  let w := offline_world (shop_args None) in
  run w =
  (config_trace (w_config_ini w) ++
     [ Mkdir (str_of (output_dir_of w));
       Connect (str_of (db_host_of w)) 3306 (str_of (db_user_of w))
         (str_of (db_pass_of w)) (str_of (db_name_of w));
       Print MsgConnectionFailed ], Exit 1).
Proof.
  apply (connection_failure_after_mkdir Re.re_compile Re.re_match Ascii7.int
           Ascii7.upper (offline_world (shop_args None)) 3306
           (Re.Cat (Re.Star Re.Dot) Re.Eps));
    vm_compute; reflexivity.
Defined.

Lemma unparsable_port_raises_witness :
  let w := bad_port_world (shop_args None) in
  run w = (config_trace (w_config_ini w), Uncaught "ValueError").
Proof.
  apply (unparsable_port_raises Re.re_compile Re.re_match Ascii7.int
           Ascii7.upper (bad_port_world (shop_args None)) "mysql");
    vm_compute; reflexivity.
Defined.

Lemma table_records_from_own_rows_witness :
  let w := shop_world (shop_args (Some "user")) in
  ∃ tables_out,
    WriteJson (output_file_of w)
      {| doc_database := str_of (db_name_of w); doc_generated_at := w_now w;
         doc_schema_version := schema_version_of w;
         doc_tables := tables_out |} ∈ (run w).1 ∧
    Forall (λ rec,
      let db_name := str_of (db_name_of w) in
      let table := tr_name rec in
      tr_columns rec = get_table_columns (rows_COLUMNS shop db_name table) ∧
      get_table_constraints (rows_TABLE_CONSTRAINTS shop db_name table) =
        Some (tr_primary_key rec, tr_unique rec) ∧
      get_table_indexes Ascii7.upper (rows_STATISTICS shop db_name table) =
        Some (tr_indexes rec) ∧
      tr_foreign_keys rec =
        get_table_foreign_keys (rows_REFERENTIAL shop db_name table) ∧
      tr_table_info rec = get_table_info (rows_TABLES shop db_name table) ∧
      tr_ddl rec = get_table_ddl (rows_SHOW_CREATE shop table)) tables_out.
Proof.
  apply (table_records_from_own_rows Re.re_compile Re.re_match Ascii7.int
           Ascii7.upper (shop_world (shop_args (Some "user"))) 3306
           user_pattern shop).
  repeat split; vm_compute; reflexivity.
Defined.

Example unreadable_config_run :
  run (with_ini IniUnreadable (shop_world no_args)) =
  ([ Print MsgConfigWarning; Print MsgRequired; Print MsgUseArguments;
     Print MsgRunHelp ], Exit 1).
Proof. vm_compute. reflexivity. Qed.
